(** * Swerve-train dispatcher and Limelight reader of the 2020 robot code

    A shallow embedding of [SwerveTrain.h] and [Limelight.h].

    Numbers.  The C++ code computes on [double].  A finite binary64 value is
    a rational number, [abs] and the comparisons are exact on such values,
    and the arithmetic operations round their exact result.  A [double] is
    therefore a rational here, and every rounded operation goes through a
    rounding function [rnd] of which only the relative error bound of
    binary64 is used (unit roundoff [2^-53]).  [round_binary64] is such a
    function: round to nearest, ties to even, on a 53-bit significand.
    NaN, infinities and underflow are outside the model.

    Effects.  The dispatcher holds four pointers to swerve modules and
    calls their methods; it also writes to the SmartDashboard.  Commands
    run in a state monad over the dispatcher object, the store of module
    objects (indexed by what a pointer refers to, so that two pointers may
    alias) and the log of calls issued so far. *)

From stdpp Require Import base functions list strings gmap.
From Stdlib Require Import QArith Qabs Qround Qpower Qreduction Lqa Lia ZArith.

Local Open Scope Q_scope.

(** ** Doubles *)

Definition double : Type := Q.

(** Unit roundoff of binary64 (round to nearest). *)
Definition unit_roundoff : Q := 1 # (2 ^ 53).

(** A rounding function: compatible with equality of rationals and within
    the relative error of binary64. *)
Class Rounding := {
  rnd : Q -> Q;
  rnd_compat : forall x y, x == y -> rnd x == rnd y;
  rnd_error : forall x, Qabs (rnd x - x) <= unit_roundoff * Qabs x
}.

(** [abs] on a double (the [double] overload that [<math.h>] brings into
    scope in C++); it is exact. *)
Definition abs (x : double) : double := Qabs x.

(** [a < b] on doubles. *)
Definition dlt (a b : double) : bool :=
  match a ?= b with Lt => true | _ => false end.

Section Arithmetic.
Context {R : Rounding}.

Definition dadd (a b : double) : double := rnd (a + b).
Definition dmul (a b : double) : double := rnd (a * b).
Definition ddiv (a b : double) : double := rnd (a / b).
End Arithmetic.

(** The bound on the relative error after one more rounded operation on
    a value whose relative error is at most [e]. *)
Definition grow (e : Q) : Q := (1 + e) * (1 + unit_roundoff) - 1.

(** Rounding to nearest, ties to even, of binary64 with an unbounded
    exponent: the nearest integer multiple of a unit in the last place of
    the 53-bit significand. *)
Definition round_half_even (q : Q) : Z :=
  let f := Qfloor q in
  match (q - inject_Z f ?= 1 # 2)%Q with
  | Lt => f
  | Gt => (f + 1)%Z
  | Eq => if Z.even f then f else (f + 1)%Z
  end.

(** The exponent [e] with [2^e <= x < 2^(e+1)], for [x] positive. *)
Definition binade (x : Q) : Z :=
  let e := (Z.log2 (Qnum x) - Z.log2 (Zpos (Qden x)))%Z in
  if Qle_bool (2 ^ e)%Q x then e else (e - 1)%Z.

Definition round_binary64 (x : Q) : Q :=
  let x := Qred x in
  if Qeq_bool x 0 then 0
  else
    let ulp := 2 ^ (binade (Qabs x) - 52) in
    inject_Z (round_half_even (x / ulp)) * ulp.

(** ** The controller *)

(** A snapshot of the joystick: what [GetX()], [GetY()] and [GetZ()] return
    within one call of a method below. *)
Record Joystick := { GetX : double; GetY : double; GetZ : double }.

Section Controller.
Context {R : Rounding}.
(** [R_controllerDeadzone] of RobotMap. *)
Variable R_controllerDeadzone : double.

Definition getControllerAbsoluteMagnitude (controller : Joystick) : double :=
  let absX := abs (GetX controller) in
  let absY := abs (GetY controller) in
  dadd absX absY.

Definition getControllerInDeadzone (controller : Joystick) : bool :=
  let absX := abs (GetX controller) in
  let absY := abs (GetY controller) in
  let absZ := abs (GetZ controller) in
  let zone := R_controllerDeadzone in
  if dlt absX zone && dlt absY zone && dlt absZ zone then true else false.
End Controller.

(** The reading with some of its axes negated. *)
Definition mirrored (fx fy fz : bool) (controller : Joystick) : Joystick :=
  {| GetX := if fx then - GetX controller else GetX controller;
     GetY := if fy then - GetY controller else GetY controller;
     GetZ := if fz then - GetZ controller else GetZ controller |}.

(** ** The Limelight reader *)

Module Limelight.

(** A value stored in a network table entry. *)
Inductive Value :=
| NT_Boolean (b : bool)
| NT_Double (d : double)
| NT_String (s : string)
| NT_Raw (s : string)
| NT_BooleanArray (l : list bool)
| NT_DoubleArray (l : list double)
| NT_StringArray (l : list string).

(** [NetworkTable::GetNumber(key, defaultValue)] of the NetworkTables
    library: the number stored under [key], or [defaultValue] when the key
    has no entry or its entry is not a number.  The table is threaded
    through the call. *)
Definition GetNumber (key : string) (defaultValue : double)
    (table : gmap string Value) : double * gmap string Value :=
  match table !! key with
  | Some (NT_Double d) => (d, table)
  | _ => (defaultValue, table)
  end.

(** The number a table stores under [key], if it stores one. *)
Definition stored_number (table : gmap string Value) (key : string) : option double :=
  match table !! key with
  | Some (NT_Double d) => Some d
  | _ => None
  end.

(** Conversion of a [double] to [bool] at [return]: zero is false. *)
Definition bool_of_double (d : double) : bool := negb (Qeq_bool d 0).

Definition horizontalOffset (table : gmap string Value) : double * gmap string Value :=
  GetNumber "tx" 0 table.

Definition verticalOffset (table : gmap string Value) : double * gmap string Value :=
  GetNumber "ty" 0 table.

Definition targetArea (table : gmap string Value) : double * gmap string Value :=
  GetNumber "ta" 0 table.

Definition target (table : gmap string Value) : bool * gmap string Value :=
  let '(v, table') := GetNumber "tv" 0 table in (bool_of_double v, table').

End Limelight.

(** ** Swerve modules as the dispatcher sees them *)

Module SwerveModule.

(** The methods of [SwerveModule] that [SwerveTrain] calls.  The class is
    declared in [SwerveModule.h]; the dispatcher is verified against any
    implementation of them.  [M] is the state of one module object. *)
Class Interface (M : Type) := {
  setDriveSpeed : double -> M -> M;
  setSwerveSpeed : double -> M -> M;
  setZeroPosition : M -> M;
  getSwerveZeroPosition : M -> double;
  assumeSwerveZeroPosition : M -> M;
  assumeSwerveNearestZeroPosition : M -> M;
  getSwervePosition : M -> double
}.

(** Modelled from the spec: the ModuleCommand of section 3, which
    [driveController] computes once per tick and hands to each module; its
    reception by a module is in [SwerveModule.h]. *)
Record ModuleCommand := { driveSpeed : double; swerveTarget : double }.

(** A method call as it leaves the dispatcher, with its arguments.  The
    last one is the hand-over of a ModuleCommand, which only the modelled
    [driveController] makes. *)
Inductive Call :=
| SetDriveSpeed (driveSpeed : double)
| SetSwerveSpeed (swerveSpeed : double)
| SetZeroPosition
| GetSwerveZeroPosition
| AssumeSwerveZeroPosition
| AssumeSwerveNearestZeroPosition
| GetSwervePosition
| Drive (command : ModuleCommand).

(** Calls that drive a motor. *)
Definition is_motion (c : Call) : bool :=
  match c with
  | SetDriveSpeed _ | SetSwerveSpeed _
  | AssumeSwerveZeroPosition | AssumeSwerveNearestZeroPosition
  | Drive _ => true
  | SetZeroPosition | GetSwerveZeroPosition | GetSwervePosition => false
  end.

End SwerveModule.

(** ** The dispatcher *)

Module SwerveTrain.
Import SwerveModule.

(** What a [SwerveModule *] points to.  Two equal references are the same
    module object. *)
Definition ModuleRef : Type := nat.

(** The data members of the class. *)
Record t := {
  m_frontRight : ModuleRef;
  m_frontLeft : ModuleRef;
  m_rearLeft : ModuleRef;
  m_rearRight : ModuleRef
}.

(** What the dispatcher does to the outside, in the order it does it. *)
Inductive Event :=
| ModuleCall (target : ModuleRef) (c : Call)
| PutNumber (key : string) (value : double).

Section Commands.
Context {M : Type} {I : Interface M}.

(** The dispatcher object, the module objects and the log of events. *)
Record Robot := {
  self : t;
  modules : ModuleRef -> M;
  events : list Event
}.

(** A command: a result and the state after it. *)
Definition Cmd (A : Type) : Type := Robot -> A * Robot.

Definition ret {A : Type} (a : A) : Cmd A := fun r => (a, r).

Definition bind {A B : Type} (c : Cmd A) (k : A -> Cmd B) : Cmd B :=
  fun r => let '(a, r') := c r in k a r'.

(** The state a command leaves. *)
Definition exec {A : Type} (c : Cmd A) (r : Robot) : Robot := snd (c r).

(** The events a command adds to the log. *)
Definition issued {A : Type} (c : Cmd A) (r : Robot) : list Event :=
  drop (length (events r)) (events (exec c r)).

(** Reading a data member of [this]. *)
Definition member (field : t -> ModuleRef) : Cmd ModuleRef :=
  fun r => (field (self r), r).

(** A [void] method called through a pointer: the module object changes
    and the call is logged. *)
Definition call_void (method : M -> M) (c : Call) (p : ModuleRef) : Cmd unit :=
  fun r => (tt, {| self := self r;
                   modules := <[p := method (modules r p)]> (modules r);
                   events := events r ++ [ModuleCall p c] |}).

(** A getter called through a pointer. *)
Definition call_get (method : M -> double) (c : Call) (p : ModuleRef) : Cmd double :=
  fun r => (method (modules r p),
            {| self := self r;
               modules := modules r;
               events := events r ++ [ModuleCall p c] |}).

(** [frc::SmartDashboard::PutNumber(key, value)]. *)
Definition SmartDashboard_PutNumber (key : string) (value : double) : Cmd unit :=
  fun r => (tt, {| self := self r;
                   modules := modules r;
                   events := events r ++ [PutNumber key value] |}).

End Commands.

Arguments Robot M : clear implicits.
Arguments Cmd M A : clear implicits.

#[global] Instance cmd_ret {M : Type} : MRet (Cmd M) := @ret M.
#[global] Instance cmd_bind {M : Type} : MBind (Cmd M) :=
  fun A B k c => bind c k.

(** [field ->> method] is the call [field->method(...)]. *)
Notation "field ->> method" := (bind (member field) method)
  (at level 50, left associativity).

Section Methods.
Context {M : Type} {I : Interface M}.

Definition mSetDriveSpeed (v : double) : ModuleRef -> Cmd M unit :=
  call_void (setDriveSpeed v) (SetDriveSpeed v).
Definition mSetSwerveSpeed (v : double) : ModuleRef -> Cmd M unit :=
  call_void (setSwerveSpeed v) (SetSwerveSpeed v).
Definition mSetZeroPosition : ModuleRef -> Cmd M unit :=
  call_void setZeroPosition SetZeroPosition.
Definition mGetSwerveZeroPosition : ModuleRef -> Cmd M double :=
  call_get getSwerveZeroPosition GetSwerveZeroPosition.
Definition mAssumeSwerveZeroPosition : ModuleRef -> Cmd M unit :=
  call_void assumeSwerveZeroPosition AssumeSwerveZeroPosition.
Definition mAssumeSwerveNearestZeroPosition : ModuleRef -> Cmd M unit :=
  call_void assumeSwerveNearestZeroPosition AssumeSwerveNearestZeroPosition.
Definition mGetSwervePosition : ModuleRef -> Cmd M double :=
  call_get getSwervePosition GetSwervePosition.

End Methods.

Section Dispatcher.
Context {M : Type} {I : Interface M}.

(** The constructor: the four references are stored, in the order front
    right, front left, rear left, rear right. *)
Definition new (frontRightModule frontLeftModule rearLeftModule rearRightModule : ModuleRef) : t :=
  {| m_frontRight := frontRightModule;
     m_frontLeft := frontLeftModule;
     m_rearLeft := rearLeftModule;
     m_rearRight := rearRightModule |}.

Definition setDriveSpeed (driveSpeed : double) : Cmd M unit :=
  m_frontRight ->> mSetDriveSpeed driveSpeed ;;
  m_frontLeft ->> mSetDriveSpeed driveSpeed ;;
  m_rearLeft ->> mSetDriveSpeed driveSpeed ;;
  m_rearRight ->> mSetDriveSpeed driveSpeed.

Definition setSwerveSpeed (swerveSpeed : double) : Cmd M unit :=
  m_frontRight ->> mSetSwerveSpeed swerveSpeed ;;
  m_frontLeft ->> mSetSwerveSpeed swerveSpeed ;;
  m_rearLeft ->> mSetSwerveSpeed swerveSpeed ;;
  m_rearRight ->> mSetSwerveSpeed swerveSpeed.

Definition setSwerveZeroPosition (verbose : bool) : Cmd M unit :=
  m_frontRight ->> mSetZeroPosition ;;
  m_frontLeft ->> mSetZeroPosition ;;
  m_rearLeft ->> mSetZeroPosition ;;
  m_rearRight ->> mSetZeroPosition ;;
  if verbose then
    fr ← m_frontRight ->> mGetSwerveZeroPosition ;
    SmartDashboard_PutNumber "FR Swrv Pos0" fr ;;
    fl ← m_frontLeft ->> mGetSwerveZeroPosition ;
    SmartDashboard_PutNumber "FL Swrv Pos0" fl ;;
    rl ← m_rearLeft ->> mGetSwerveZeroPosition ;
    SmartDashboard_PutNumber "RL Swrv Pos0" rl ;;
    rr ← m_rearRight ->> mGetSwerveZeroPosition ;
    SmartDashboard_PutNumber "RR Swrv Pos0" rr
  else mret tt.

Definition assumeZeroPosition : Cmd M unit :=
  m_frontRight ->> mAssumeSwerveZeroPosition ;;
  m_frontLeft ->> mAssumeSwerveZeroPosition ;;
  m_rearLeft ->> mAssumeSwerveZeroPosition ;;
  m_rearRight ->> mAssumeSwerveZeroPosition.

Definition assumeNearestZeroPosition : Cmd M unit :=
  m_frontRight ->> mAssumeSwerveNearestZeroPosition ;;
  m_frontLeft ->> mAssumeSwerveNearestZeroPosition ;;
  m_rearLeft ->> mAssumeSwerveNearestZeroPosition ;;
  m_rearRight ->> mAssumeSwerveNearestZeroPosition.

Definition publishSwervePositions : Cmd M unit :=
  fr ← m_frontRight ->> mGetSwervePosition ;
  SmartDashboard_PutNumber "FR Swrv Pos" fr ;;
  fl ← m_frontLeft ->> mGetSwervePosition ;
  SmartDashboard_PutNumber "FL Swrv Pos" fl ;;
  rl ← m_rearLeft ->> mGetSwervePosition ;
  SmartDashboard_PutNumber "RL Swrv Pos" rl ;;
  rr ← m_rearRight ->> mGetSwervePosition ;
  SmartDashboard_PutNumber "RR Swrv Pos" rr.

(** The public methods defined in the header, with their arguments. *)
Inductive Operation :=
| SetDriveSpeedOp (driveSpeed : double)
| SetSwerveSpeedOp (swerveSpeed : double)
| SetSwerveZeroPositionOp (verbose : bool)
| AssumeZeroPositionOp
| AssumeNearestZeroPositionOp
| PublishSwervePositionsOp.

Definition run (op : Operation) : Cmd M unit :=
  match op with
  | SetDriveSpeedOp v => setDriveSpeed v
  | SetSwerveSpeedOp v => setSwerveSpeed v
  | SetSwerveZeroPositionOp verbose => setSwerveZeroPosition verbose
  | AssumeZeroPositionOp => assumeZeroPosition
  | AssumeNearestZeroPositionOp => assumeNearestZeroPosition
  | PublishSwervePositionsOp => publishSwervePositions
  end.

End Dispatcher.

(** *** The per-tick drive *)

Section Driving.
Context {M : Type} {I : Interface M} {R : Rounding}.
(** [R_controllerDeadzone] of RobotMap. *)
Variable R_controllerDeadzone : double.
(** The private method of this name, which the header declares at line
    145 without a body: the rotation units of the stick direction. *)
Variable getControllerClockwiseREVRotationsFromCenter : Joystick -> double.
(** What a module does with a ModuleCommand, in [SwerveModule.h]. *)
Variable drive : ModuleCommand -> M -> M.

Definition mDrive (command : ModuleCommand) : ModuleRef -> Cmd M unit :=
  call_void (drive command) (Drive command).

(** Modelled from the spec: [driveFromController] of section 4.7, the body
    of [SwerveTrain::driveController], which the header declares at line
    137.  A centred controller stops the train: drive speed 0, no azimuth
    change.  Otherwise the magnitude and the rotation units of the stick
    make one ModuleCommand, handed to the four modules in the order front
    right, front left, rear left, rear right. *)
Definition driveController (controller : Joystick) : Cmd M unit :=
  if getControllerInDeadzone R_controllerDeadzone controller then
    setDriveSpeed 0
  else
    let command :=
      {| driveSpeed := getControllerAbsoluteMagnitude controller;
         swerveTarget := getControllerClockwiseREVRotationsFromCenter controller |} in
    m_frontRight ->> mDrive command ;;
    m_frontLeft ->> mDrive command ;;
    m_rearLeft ->> mDrive command ;;
    m_rearRight ->> mDrive command.

(** Every public method of the class: the six of the header and
    [driveController]. *)
Inductive PublicOperation :=
| Bulk (op : Operation)
| DriveController (controller : Joystick).

Definition run_public (op : PublicOperation) : Cmd M unit :=
  match op with
  | Bulk op => run op
  | DriveController controller => driveController controller
  end.

(** The operations of successive ticks, one after the other. *)
Fixpoint run_all (ticks : list PublicOperation) : Cmd M unit :=
  match ticks with
  | [] => mret tt
  | op :: rest => run_public op ;; run_all rest
  end.

End Driving.

(** *** What is observed of a run *)

(** The four pointers in the order the methods go through them. *)
Definition round (this : t) : list ModuleRef :=
  [m_frontRight this; m_frontLeft this; m_rearLeft this; m_rearRight this].

(** The store after [method] has run on the modules [ps], one after the
    other.  A module that two pointers share is changed twice. *)
Definition apply_to {M : Type} (method : M -> M) (ps : list ModuleRef)
    (mods : ModuleRef -> M) : ModuleRef -> M :=
  foldl (fun ms p => <[p := method (ms p)]> ms) mods ps.

(** The method calls of a log, in order. *)
Definition module_calls (l : list Event) : list (ModuleRef * Call) :=
  omap (fun e => match e with
                 | ModuleCall p c => Some (p, c)
                 | PutNumber _ _ => None
                 end) l.

(** The SmartDashboard entries of a log, in order. *)
Definition published (l : list Event) : list (string * double) :=
  omap (fun e => match e with
                 | ModuleCall _ _ => None
                 | PutNumber key value => Some (key, value)
                 end) l.

(** The kinds of call an operation makes on each module, in order. *)
Definition calls_of (op : Operation) : list Call :=
  match op with
  | SetDriveSpeedOp v => [SetDriveSpeed v]
  | SetSwerveSpeedOp v => [SetSwerveSpeed v]
  | SetSwerveZeroPositionOp verbose =>
      SetZeroPosition :: (if verbose then [GetSwerveZeroPosition] else [])
  | AssumeZeroPositionOp => [AssumeSwerveZeroPosition]
  | AssumeNearestZeroPositionOp => [AssumeSwerveNearestZeroPosition]
  | PublishSwervePositionsOp => [GetSwervePosition]
  end.

(** Two states that agree on the dispatcher object and on every module
    object; their logs may differ. *)
Definition same_modules {M : Type} (r1 r2 : Robot M) : Prop :=
  self r1 = self r2 /\ forall p, modules r1 p = modules r2 p.

(** A command is regular when it keeps the dispatcher object, only adds to
    the log, and on two states with the same modules returns the same
    result, adds the same events and leaves states with the same modules. *)
Definition regular {M A : Type} (c : Cmd M A) : Prop :=
  (forall r, self (exec c r) = self r /\
             events (exec c r) = events r ++ issued c r) /\
  (forall r1 r2, same_modules r1 r2 ->
     fst (c r1) = fst (c r2) /\
     issued c r1 = issued c r2 /\
     same_modules (exec c r1) (exec c r2)).

(** The module method behind the [void] calls of an operation; publishing
    only calls a getter, which leaves the module as it is. *)
Definition method_of {M : Type} {I : Interface M} (op : Operation) : M -> M :=
  match op with
  | SetDriveSpeedOp v => SwerveModule.setDriveSpeed v
  | SetSwerveSpeedOp v => SwerveModule.setSwerveSpeed v
  | SetSwerveZeroPositionOp _ => setZeroPosition
  | AssumeZeroPositionOp => assumeSwerveZeroPosition
  | AssumeNearestZeroPositionOp => assumeSwerveNearestZeroPosition
  | PublishSwervePositionsOp => fun m => m
  end.

(** The SmartDashboard keys an operation writes. *)
Definition keys_of (op : Operation) : list string :=
  match op with
  | SetSwerveZeroPositionOp true =>
      ["FR Swrv Pos0"; "FL Swrv Pos0"; "RL Swrv Pos0"; "RR Swrv Pos0"]
  | PublishSwervePositionsOp =>
      ["FR Swrv Pos"; "FL Swrv Pos"; "RL Swrv Pos"; "RR Swrv Pos"]
  | _ => []
  end.

(** The numbers on the SmartDashboard after the events of a log:
    [PutNumber] sets the entry of its key. *)
Definition dashboard_after (log : list Event) (dashboard : gmap string double)
    : gmap string double :=
  foldl (fun d e => match e with
                    | PutNumber key value => <[key := value]> d
                    | ModuleCall _ _ => d
                    end) dashboard log.

End SwerveTrain.

(** ** The module actuator and the unit conversion of the specification *)

Module Actuator.

(** Modelled from the spec: the state of a module actuator, whose class
    [SwerveModule] is declared in [SwerveModule.h].  It holds the two motor
    outputs, the raw azimuth encoder reading, the ZeroReference and the
    position target last commanded to the azimuth controller. *)
Record state := {
  driveSpeed : double;
  swerveSpeed : double;
  swervePosition : double;
  swerveZeroPosition : double;
  swerveReference : option double
}.

(** Modelled from the spec: the nearest-zero choice of [homeToNearestZero],
    whose code is in [SwerveModule.h].  Among the candidates
    [zero + k * mechanicalPeriod] the one nearest to [current]; of two
    candidates at the same distance the one of smaller absolute value.  The
    two candidates around [current] are compared. *)
Definition nearestZero (mechanicalPeriod current zero : double) : double :=
  let k := Qfloor ((current - zero) / mechanicalPeriod) in
  let below := zero + inject_Z k * mechanicalPeriod in
  let above := below + mechanicalPeriod in
  match current - below ?= above - current with
  | Lt => below
  | Gt => above
  | Eq => if Qle_bool (Qabs below) (Qabs above) then below else above
  end.

Section Model.
(** The mechanical period: encoder units per azimuth revolution. *)
Variable mechanicalPeriod : double.

(** Modelled from the spec: [setDriveSpeed(scalar)] of the module
    actuator, the body of [SwerveModule::setDriveSpeed]. *)
Definition set_driveSpeed (v : double) (m : state) : state :=
  {| driveSpeed := v; swerveSpeed := swerveSpeed m;
     swervePosition := swervePosition m;
     swerveZeroPosition := swerveZeroPosition m;
     swerveReference := swerveReference m |}.

(** Modelled from the spec: [setSwerveSpeed(scalar)] of the module
    actuator, the body of [SwerveModule::setSwerveSpeed]. *)
Definition set_swerveSpeed (v : double) (m : state) : state :=
  {| driveSpeed := driveSpeed m; swerveSpeed := v;
     swervePosition := swervePosition m;
     swerveZeroPosition := swerveZeroPosition m;
     swerveReference := swerveReference m |}.

(** Modelled from the spec: [captureZero], the body of
    [SwerveModule::setZeroPosition]: the raw encoder reading becomes the
    ZeroReference. *)
Definition captureZero (m : state) : state :=
  {| driveSpeed := driveSpeed m; swerveSpeed := swerveSpeed m;
     swervePosition := swervePosition m;
     swerveZeroPosition := swervePosition m;
     swerveReference := swerveReference m |}.

(** Modelled from the spec: a position target handed to the closed-loop
    control of the azimuth actuator, which [SwerveModule.h] would do. *)
Definition set_reference (target : double) (m : state) : state :=
  {| driveSpeed := driveSpeed m; swerveSpeed := swerveSpeed m;
     swervePosition := swervePosition m;
     swerveZeroPosition := swerveZeroPosition m;
     swerveReference := Some target |}.

(** Modelled from the spec: [homeToZero], the body of
    [SwerveModule::assumeSwerveZeroPosition]. *)
Definition homeToZero (m : state) : state :=
  set_reference (swerveZeroPosition m) m.

(** Modelled from the spec: [homeToNearestZero], the body of
    [SwerveModule::assumeSwerveNearestZeroPosition]. *)
Definition homeToNearestZero (m : state) : state :=
  set_reference
    (nearestZero mechanicalPeriod (swervePosition m) (swerveZeroPosition m)) m.

(** Modelled from the spec: the module actuator of section 6 as an
    implementation of the methods [SwerveTrain] calls; [currentZero] and
    [currentPosition] read the ZeroReference and the raw encoder. *)
#[local] Instance actuator : SwerveModule.Interface state := {|
  SwerveModule.setDriveSpeed := set_driveSpeed;
  SwerveModule.setSwerveSpeed := set_swerveSpeed;
  SwerveModule.setZeroPosition := captureZero;
  SwerveModule.getSwerveZeroPosition := swerveZeroPosition;
  SwerveModule.assumeSwerveZeroPosition := homeToZero;
  SwerveModule.assumeSwerveNearestZeroPosition := homeToNearestZero;
  SwerveModule.getSwervePosition := swervePosition
|}.

End Model.

(** A module standing at 3200 whose zero was captured at 1000, and a robot
    of four such modules behind the pointers 1 to 4. *)
Definition example_module : state :=
  {| driveSpeed := 0; swerveSpeed := 0; swervePosition := 3200;
     swerveZeroPosition := 1000; swerveReference := None |}.

Definition example_robot (log : list SwerveTrain.Event) : SwerveTrain.Robot state :=
  {| SwerveTrain.self := SwerveTrain.new 1%nat 2%nat 3%nat 4%nat;
     SwerveTrain.modules := fun _ => example_module;
     SwerveTrain.events := log |}.

(** [M_PI] of [<math.h>]: the double nearest to pi. *)
Definition M_PI : double := 884279719003555 # 281474976710656.

(** [2 * M_PI]; doubling a double is exact. *)
Definition two_pi : double := 2 * M_PI.

Section Conversion.
Context {R : Rounding}.
Variable mechanicalPeriod : double.

(** Modelled from the spec: the Angle to RotationUnit conversion
    [angle / (2 pi) * mechanicalPeriod], the last step of
    [getControllerClockwiseREVRotationsFromCenter], which the header only
    declares. *)
Definition unitsFromAngle (angle : double) : double :=
  dmul (ddiv angle two_pi) mechanicalPeriod.

(** Modelled from the spec: the inverse conversion, RotationUnit to Angle,
    [units / mechanicalPeriod * (2 pi)]. *)
Definition angleFromUnits (units : double) : double :=
  dmul (ddiv units mechanicalPeriod) two_pi.

End Conversion.

End Actuator.

(** * Properties *)

(** ** Doubles *)

Lemma dlt_spec (a b : double) : dlt a b = true <-> a < b.
Proof.
  unfold dlt. rewrite Qlt_alt.
  destruct (a ?= b); split; intros H; congruence.
Qed.

Lemma dlt_false (a b : double) : dlt a b = false <-> b <= a.
Proof.
  pose proof (dlt_spec a b) as H. pose proof (Qnot_lt_le a b) as H1.
  pose proof (Qle_not_lt b a) as H2.
  destruct (dlt a b); split; intros H3; try congruence.
  - exfalso. apply (H2 H3). now apply H.
  - apply H1. intros H4. apply H in H4. congruence.
Qed.

Lemma unit_roundoff_bounds : 0 <= unit_roundoff /\ unit_roundoff <= 1 # 1000.
Proof. split; discriminate. Qed.

(** Rounding that changes nothing: arithmetic on values whose results are
    representable. *)
Lemma exact_rounding_error (x : Q) : Qabs (x - x) <= unit_roundoff * Qabs x.
Proof.
  assert (E : x - x == 0) by ring. rewrite E. change (Qabs 0) with 0.
  apply Qmult_le_0_compat; [discriminate | apply Qabs_nonneg].
Qed.

Instance exact_rounding : Rounding :=
  {| rnd := fun x => x;
     rnd_compat := fun x y H => H;
     rnd_error := exact_rounding_error |}.

(** Rounding as binary64 does it. *)
Lemma round_half_even_error (q : Q) :
  Qabs (inject_Z (round_half_even q) - q) <= 1 # 2.
Proof.
  pose proof (Qfloor_le q) as Hlo. pose proof (Qlt_floor q) as Hhi.
  rewrite inject_Z_plus in Hhi. change (inject_Z 1) with 1 in Hhi.
  apply Qabs_Qle_condition. unfold round_half_even.
  destruct (Qcompare_spec (q - inject_Z (Qfloor q)) (1 # 2)) as [E|E|E];
    [destruct (Z.even (Qfloor q)) | | ];
    rewrite ?inject_Z_plus; change (inject_Z 1) with 1; split; lra.
Qed.

Lemma binade_le (y : Q) : 0 < y -> 2 ^ binade y <= y.
Proof.
  intros Hy. unfold binade.
  destruct (Qle_bool (2 ^ (Z.log2 (Qnum y) - Z.log2 (Z.pos (Qden y)))) y) eqn:T.
  - now apply Qle_bool_iff.
  - clear T. destruct y as [n d]. cbn [Qnum Qden].
    assert (Hn : (0 < n)%Z) by (unfold Qlt in Hy; simpl in Hy; lia).
    destruct (Z.log2_spec n Hn) as [Ln _].
    destruct (Z.log2_spec (Z.pos d) eq_refl) as [_ Ld].
    pose proof (Z.log2_nonneg n) as Nn.
    pose proof (Z.log2_nonneg (Z.pos d)) as Nd.
    replace (Z.log2 n - Z.log2 (Z.pos d) - 1)%Z
      with (Z.log2 n - Z.succ (Z.log2 (Z.pos d)))%Z by lia.
    rewrite Qpower_minus by discriminate.
    change 2 with (inject_Z 2).
    rewrite <- !Zpower_Qpower by lia.
    rewrite Zle_Qle in Ln. apply Z.lt_le_incl in Ld. rewrite Zle_Qle in Ld.
    assert (Pd : 0 < inject_Z (Z.pos d)) by (now rewrite <- (Zlt_Qlt 0)).
    assert (Pn : 0 < inject_Z n) by (now rewrite <- (Zlt_Qlt 0)).
    rewrite (Qmake_Qdiv n d).
    set (A := inject_Z (2 ^ Z.log2 n)) in *.
    set (B := inject_Z (2 ^ Z.succ (Z.log2 (Z.pos d)))) in *.
    set (N := inject_Z n) in *. set (D := inject_Z (Z.pos d)) in *.
    apply Qle_shift_div_r; [lra|].
    assert (E : N / D * D == N) by (field; lra).
    assert (Q0 : 0 <= N / D) by (apply Qle_shift_div_l; lra).
    assert (M : N / D * D <= N / D * B).
    { rewrite !(Qmult_comm (N / D)). apply Qmult_le_compat_r; assumption. }
    lra.
Qed.

Lemma round_binary64_compat (x y : Q) : x == y -> round_binary64 x == round_binary64 y.
Proof.
  intros E. unfold round_binary64. rewrite (Qred_complete x y E). reflexivity.
Qed.

Lemma round_binary64_error (x : Q) :
  Qabs (round_binary64 x - x) <= unit_roundoff * Qabs x.
Proof.
  unfold round_binary64.
  pose proof (Qred_correct x) as Ex. revert Ex.
  generalize (Qred x). intros x' Ex.
  destruct (Qeq_bool x' 0) eqn:Z0.
  - apply Qeq_bool_iff in Z0. rewrite <- Ex, Z0.
    change (Qabs (0 - 0)) with 0. change (Qabs 0) with 0. lra.
  - assert (Hx : ~ x' == 0) by (intros H; apply Qeq_bool_iff in H; congruence).
    assert (Hpos : 0 < Qabs x').
    { pose proof (Qabs_nonneg x') as H. apply Qle_lt_or_eq in H.
      destruct H as [H|H]; [exact H|].
      exfalso. apply Hx. revert H. apply Qabs_case; intros; lra. }
    pose proof (binade_le (Qabs x') Hpos) as Hb.
    set (b := binade (Qabs x')) in *.
    assert (Hulp : 0 < 2 ^ (b - 52)) by (apply Qpower_0_lt; reflexivity).
    assert (Eulp : 2 ^ (b - 52) == 2 ^ b * (1 # 2 ^ 52)).
    { unfold Z.sub. rewrite Qpower_plus by discriminate. reflexivity. }
    set (ulp := 2 ^ (b - 52)) in *.
    pose proof (round_half_even_error (x' / ulp)) as Hr.
    set (m := inject_Z (round_half_even (x' / ulp))) in *.
    assert (E : m * ulp - x == (m - x' / ulp) * ulp) by (rewrite <- Ex; field; lra).
    rewrite E, Qabs_Qmult, (Qabs_pos ulp) by lra.
    apply (Qmult_le_compat_r _ _ ulp) in Hr; [|lra].
    rewrite <- Ex.
    assert (Hu : unit_roundoff * 2 ^ b <= unit_roundoff * Qabs x').
    { rewrite !(Qmult_comm unit_roundoff). apply Qmult_le_compat_r; [exact Hb|discriminate]. }
    assert (Eu : (1 # 2) * ulp == unit_roundoff * 2 ^ b).
    { rewrite Eulp. unfold unit_roundoff. 
      assert (E2 : (1 # 2) * (1 # 2 ^ 52) == 1 # 2 ^ 53) by reflexivity.
      rewrite <- E2. ring. }
    lra.
Qed.

Instance binary64_rounding : Rounding :=
  {| rnd := round_binary64;
     rnd_compat := round_binary64_compat;
     rnd_error := round_binary64_error |}.

(** 0.1 is rounded to the double next to it, and 0.1 + 0.2 is not 0.3. *)
Example round_binary64_tenth :
  round_binary64 (1 # 10) == 3602879701896397 # 36028797018963968 /\
  ~ @dadd binary64_rounding (round_binary64 (1 # 10)) (round_binary64 (2 # 10))
    == round_binary64 (3 # 10).
Proof. split; [reflexivity | vm_compute; discriminate]. Qed.

Section RoundingFacts.
Context {R : Rounding}.

(** The rounded value lies between the two relative bounds. *)
Lemma rnd_between (x : Q) :
  x - unit_roundoff * Qabs x <= rnd x <= x + unit_roundoff * Qabs x.
Proof.
  pose proof (rnd_error x) as H.
  apply Qabs_Qle_condition in H. destruct H as [H1 H2]. split; lra.
Qed.

Lemma rnd_zero : rnd 0 == 0.
Proof.
  pose proof (rnd_between 0) as [H1 H2].
  change (Qabs 0) with 0 in H1, H2. lra.
Qed.

Lemma rnd_nonneg (x : Q) : 0 <= x -> 0 <= rnd x.
Proof.
  intros Hx. pose proof (rnd_between x) as [H1 _].
  rewrite (Qabs_pos x Hx) in H1.
  pose proof unit_roundoff_bounds as [_ Hu].
  assert (0 <= (1 - unit_roundoff) * x) by (apply Qmult_le_0_compat; lra).
  lra.
Qed.

(** A sum of two non-negative doubles loses at most a thousandth. *)
Lemma dadd_lower (a b : double) :
  0 <= a -> 0 <= b -> (999 # 1000) * (a + b) <= dadd a b.
Proof.
  intros Ha Hb. unfold dadd.
  pose proof (rnd_between (a + b)) as [H1 _].
  rewrite (Qabs_pos (a + b)) in H1 by lra.
  pose proof unit_roundoff_bounds as [_ Hu].
  assert (0 <= ((1 # 1000) - unit_roundoff) * (a + b))
    by (apply Qmult_le_0_compat; lra).
  lra.
Qed.

End RoundingFacts.

(** ** The controller *)

(** C2. [getControllerInDeadzone] returns true exactly when the absolute
    value of each of the three axes is strictly below the deadzone; an axis
    whose absolute value equals the deadzone is outside it.  The function
    is pure: it maps the reading to a boolean and nothing else. *)
Theorem getControllerInDeadzone_iff (zone : double) (controller : Joystick) :
  getControllerInDeadzone zone controller = true <->
  Qabs (GetX controller) < zone /\
  Qabs (GetY controller) < zone /\
  Qabs (GetZ controller) < zone.
Proof.
  unfold getControllerInDeadzone, abs.
  rewrite <- !dlt_spec.
  destruct (dlt (Qabs (GetX controller)) zone),
           (dlt (Qabs (GetY controller)) zone),
           (dlt (Qabs (GetZ controller)) zone); simpl;
    split; try tauto; intros (? & ? & ?); congruence.
Qed.

(** An axis at or above the deadzone makes the check fail. *)
Lemma getControllerInDeadzone_outside (zone : double) (controller : Joystick) :
  zone <= Qabs (GetX controller) \/
  zone <= Qabs (GetY controller) \/
  zone <= Qabs (GetZ controller) ->
  getControllerInDeadzone zone controller = false.
Proof.
  unfold getControllerInDeadzone, abs.
  intros [H | [H | H]]; apply dlt_false in H; rewrite H.
  - reflexivity.
  - now rewrite andb_false_r.
  - now rewrite andb_false_r.
Qed.

(** C7. With a deadzone of zero or less no reading is in the deadzone:
    the comparison [abs < zone] already fails, without a branch for it. *)
Theorem getControllerInDeadzone_nonpositive (zone : double) (controller : Joystick) :
  zone <= 0 -> getControllerInDeadzone zone controller = false.
Proof.
  intros Hzone. apply getControllerInDeadzone_outside. left.
  pose proof (Qabs_nonneg (GetX controller)). lra.
Qed.

Lemma getControllerInDeadzone_nonpositive_witness :
  getControllerInDeadzone (- (1 # 5))
    {| GetX := 1 # 10; GetY := 3 # 20; GetZ := 1 # 20 |} = false.
Proof.
  apply (getControllerInDeadzone_nonpositive (- (1 # 5))). discriminate.
Defined.

(** Scenario A of the specification: deadzone 0.2 and the reading
    (0.1, 0.15, 0.05). *)
Example getControllerInDeadzone_scenario_A :
  getControllerInDeadzone (1 # 5)
    {| GetX := 1 # 10; GetY := 3 # 20; GetZ := 1 # 20 |} = true.
Proof. reflexivity. Qed.

(** C3. The magnitude is the double sum of the absolute values of x and
    y, the taxicab length: it is within one rounding of [|x| + |y|], it is
    never negative, it is zero at the centre, and at (1, 1) its square is
    not the squared Euclidean length. *)
Theorem getControllerAbsoluteMagnitude_taxicab {R : Rounding} (controller : Joystick) :
  let x := GetX controller in
  let y := GetY controller in
  getControllerAbsoluteMagnitude controller = dadd (Qabs x) (Qabs y) /\
  Qabs (getControllerAbsoluteMagnitude controller - (Qabs x + Qabs y))
    <= unit_roundoff * (Qabs x + Qabs y) /\
  0 <= getControllerAbsoluteMagnitude controller /\
  (x == 0 -> y == 0 -> getControllerAbsoluteMagnitude controller == 0) /\
  ~ (let m := getControllerAbsoluteMagnitude
                {| GetX := 1; GetY := 1; GetZ := GetZ controller |} in
     m * m == 1 * 1 + 1 * 1).
Proof.
  intros x y. unfold getControllerAbsoluteMagnitude, abs. fold x y.
  pose proof (Qabs_nonneg x) as Hx. pose proof (Qabs_nonneg y) as Hy.
  repeat split.
  - unfold dadd. pose proof (rnd_error (Qabs x + Qabs y)) as H.
    rewrite (Qabs_pos (Qabs x + Qabs y)) in H by lra. exact H.
  - unfold dadd. apply rnd_nonneg. lra.
  - intros Ex Ey. unfold dadd. rewrite <- rnd_zero. apply rnd_compat.
    rewrite Ex, Ey. reflexivity.
  - cbn [GetX GetY]. change (Qabs 1) with 1.
    pose proof (dadd_lower 1 1) as H.
    assert (H1 : (999 # 1000) * (1 + 1) <= dadd 1 1) by (apply H; lra).
    clear H. generalize dependent (dadd 1 1). intros m Hm E.
    assert (H2 : (19 # 10) * m <= m * m) by (apply Qmult_le_compat_r; lra).
    lra.
Qed.

(** The centred stick and the stick pushed to a corner, in binary64. *)
Lemma getControllerAbsoluteMagnitude_taxicab_witness :
  let centre := {| GetX := 0; GetY := 0; GetZ := 1 # 2 |} in
  @getControllerAbsoluteMagnitude binary64_rounding centre == 0.
Proof.
  intros centre.
  apply (@getControllerAbsoluteMagnitude_taxicab binary64_rounding centre);
    reflexivity.
Defined.

Example getControllerAbsoluteMagnitude_corner :
  @getControllerAbsoluteMagnitude binary64_rounding
    {| GetX := 1; GetY := - (1); GetZ := 0 |} == 2.
Proof. reflexivity. Qed.

(** Without rounding the magnitude is [|x| + |y|] on the nose. *)
Lemma getControllerAbsoluteMagnitude_exact (controller : Joystick) :
  @getControllerAbsoluteMagnitude exact_rounding controller =
  Qabs (GetX controller) + Qabs (GetY controller).
Proof. reflexivity. Qed.

(** ** The Limelight reader *)

Section LimelightFacts.
Import Limelight.

Lemma GetNumber_table (key : string) (d : double) (table : gmap string Value) :
  snd (GetNumber key d table) = table.
Proof. unfold GetNumber. destruct (table !! key) as [[]|]; reflexivity. Qed.

Lemma GetNumber_value (key : string) (d : double) (table : gmap string Value) :
  fst (GetNumber key d table) = default d (stored_number table key).
Proof.
  unfold GetNumber, stored_number.
  destruct (table !! key) as [[]|]; reflexivity.
Qed.

Lemma bool_of_double_false (d : double) : bool_of_double d = false <-> d == 0.
Proof.
  unfold bool_of_double. rewrite negb_false_iff. apply Qeq_bool_iff.
Qed.

(** C9. Each accessor returns the number stored under its key, and 0 when
    the table stores no number there; [target] is false exactly when the
    number under "tv" is zero or missing; the table is the same after
    each call. *)
Theorem accessors_read_table (table : gmap string Value) :
  horizontalOffset table = (default 0 (stored_number table "tx"), table) /\
  verticalOffset table = (default 0 (stored_number table "ty"), table) /\
  targetArea table = (default 0 (stored_number table "ta"), table) /\
  snd (target table) = table /\
  (fst (target table) = false <->
   stored_number table "tv" = None \/
   exists d, stored_number table "tv" = Some d /\ d == 0).
Proof.
  unfold horizontalOffset, verticalOffset, targetArea, target.
  repeat split.
  - rewrite (surjective_pairing (GetNumber "tx" 0 table)).
    now rewrite GetNumber_value, GetNumber_table.
  - rewrite (surjective_pairing (GetNumber "ty" 0 table)).
    now rewrite GetNumber_value, GetNumber_table.
  - rewrite (surjective_pairing (GetNumber "ta" 0 table)).
    now rewrite GetNumber_value, GetNumber_table.
  - rewrite (surjective_pairing (GetNumber "tv" 0 table)).
    apply GetNumber_table.
  - rewrite (surjective_pairing (GetNumber "tv" 0 table)). simpl.
    rewrite GetNumber_value, bool_of_double_false.
    destruct (stored_number table "tv") as [d|]; simpl; eauto.
  - rewrite (surjective_pairing (GetNumber "tv" 0 table)). simpl.
    rewrite GetNumber_value, bool_of_double_false.
    intros [H | (d & H & Hd)]; rewrite H; simpl; [reflexivity | exact Hd].
Qed.

(** A key that has no entry reads as the default. *)
Lemma stored_number_absent (table : gmap string Value) (key : string) :
  table !! key = None -> stored_number table key = None.
Proof. unfold stored_number. now intros ->. Qed.

Lemma stored_number_present (table : gmap string Value) (key : string) (d : double) :
  table !! key = Some (NT_Double d) -> stored_number table key = Some d.
Proof. unfold stored_number. now intros ->. Qed.

End LimelightFacts.

(** ** The dispatcher *)

Section TrainFacts.
Import SwerveModule SwerveTrain.
Context {M : Type} {I : Interface M}.

Lemma issued_app {A : Type} (c : Cmd M A) (r : Robot M) (l : list Event) :
  events (exec c r) = events r ++ l -> issued c r = l.
Proof. unfold issued. intros ->. apply drop_app_length. Qed.

(** A [void] method called on the four modules in turn. *)
Lemma void_round_run (method : M -> M) (c : Call) (r : Robot M) :
  (m_frontRight ->> call_void method c ;;
   m_frontLeft ->> call_void method c ;;
   m_rearLeft ->> call_void method c ;;
   m_rearRight ->> call_void method c) r =
  (tt, {| self := self r;
          modules := apply_to method (round (self r)) (modules r);
          events := events r ++ map (fun p => ModuleCall p c) (round (self r)) |}).
Proof.
  unfold mbind, cmd_bind, bind, member, call_void. cbn.
  rewrite <- !app_assoc. reflexivity.
Qed.

(** The same, followed by more. *)
Lemma void_round_then {B : Type} (method : M -> M) (c : Call)
    (k : Cmd M B) (r : Robot M) :
  (m_frontRight ->> call_void method c ;;
   m_frontLeft ->> call_void method c ;;
   m_rearLeft ->> call_void method c ;;
   m_rearRight ->> call_void method c ;;
   k) r =
  k {| self := self r;
       modules := apply_to method (round (self r)) (modules r);
       events := events r ++ map (fun p => ModuleCall p c) (round (self r)) |}.
Proof.
  unfold mbind, cmd_bind, bind, member, call_void. cbn.
  rewrite <- !app_assoc. reflexivity.
Qed.

(** A getter called on the four modules in turn, each value published
    under its key. *)
Lemma get_round_run (method : M -> double) (c : Call)
    (k1 k2 k3 k4 : string) (r : Robot M) :
  (fr ← m_frontRight ->> call_get method c ;
   SmartDashboard_PutNumber k1 fr ;;
   fl ← m_frontLeft ->> call_get method c ;
   SmartDashboard_PutNumber k2 fl ;;
   rl ← m_rearLeft ->> call_get method c ;
   SmartDashboard_PutNumber k3 rl ;;
   rr ← m_rearRight ->> call_get method c ;
   SmartDashboard_PutNumber k4 rr) r =
  (tt, {| self := self r;
          modules := modules r;
          events := events r ++
            [ModuleCall (m_frontRight (self r)) c;
             PutNumber k1 (method (modules r (m_frontRight (self r))));
             ModuleCall (m_frontLeft (self r)) c;
             PutNumber k2 (method (modules r (m_frontLeft (self r))));
             ModuleCall (m_rearLeft (self r)) c;
             PutNumber k3 (method (modules r (m_rearLeft (self r))));
             ModuleCall (m_rearRight (self r)) c;
             PutNumber k4 (method (modules r (m_rearRight (self r))))] |}).
Proof.
  unfold mbind, cmd_bind, bind, member, call_get, SmartDashboard_PutNumber. cbn.
  rewrite <- !app_assoc. reflexivity.
Qed.

Lemma apply_to_cons (method : M -> M) (q : ModuleRef) (ps : list ModuleRef)
    (mods : ModuleRef -> M) :
  apply_to method (q :: ps) mods =
  apply_to method ps (<[q := method (mods q)]> mods).
Proof. reflexivity. Qed.

(** The store is changed at a module as often as the module is in the
    round, and nowhere else: what happens to one module does not reach
    another. *)
Lemma apply_to_at (method : M -> M) (ps : list ModuleRef)
    (mods : ModuleRef -> M) (p : ModuleRef) :
  apply_to method ps mods p =
  Nat.iter (count_occ Nat.eq_dec ps p) method (mods p).
Proof.
  revert mods. induction ps as [|q ps IH]; intros mods; [reflexivity|].
  rewrite apply_to_cons, IH. simpl count_occ.
  destruct (Nat.eq_dec q p) as [->|Hne].
  - rewrite fn_lookup_insert. symmetry. apply Nat.iter_succ_r.
  - rewrite fn_lookup_insert_ne by congruence. reflexivity.
Qed.

Lemma apply_to_other (method : M -> M) (ps : list ModuleRef)
    (mods : ModuleRef -> M) (p : ModuleRef) :
  p ∈ ps \/ apply_to method ps mods p = mods p.
Proof.
  destruct (decide (p ∈ ps)) as [Hin|Hout]; [now left | right].
  rewrite apply_to_at.
  rewrite (proj1 (count_occ_not_In Nat.eq_dec ps p)); [reflexivity|].
  now rewrite <- list_elem_of_In.
Qed.

Lemma setDriveSpeed_run (v : double) (r : Robot M) :
  SwerveTrain.setDriveSpeed v r =
  (tt, {| self := self r;
          modules := apply_to (SwerveModule.setDriveSpeed v) (round (self r)) (modules r);
          events := events r ++
            map (fun p => ModuleCall p (SetDriveSpeed v)) (round (self r)) |}).
Proof. apply void_round_run. Qed.

Lemma setSwerveSpeed_run (v : double) (r : Robot M) :
  SwerveTrain.setSwerveSpeed v r =
  (tt, {| self := self r;
          modules := apply_to (SwerveModule.setSwerveSpeed v) (round (self r)) (modules r);
          events := events r ++
            map (fun p => ModuleCall p (SetSwerveSpeed v)) (round (self r)) |}).
Proof. apply void_round_run. Qed.

Lemma assumeZeroPosition_run (r : Robot M) :
  assumeZeroPosition r =
  (tt, {| self := self r;
          modules := apply_to assumeSwerveZeroPosition (round (self r)) (modules r);
          events := events r ++
            map (fun p => ModuleCall p AssumeSwerveZeroPosition) (round (self r)) |}).
Proof. apply void_round_run. Qed.

Lemma assumeNearestZeroPosition_run (r : Robot M) :
  assumeNearestZeroPosition r =
  (tt, {| self := self r;
          modules := apply_to assumeSwerveNearestZeroPosition (round (self r)) (modules r);
          events := events r ++
            map (fun p => ModuleCall p AssumeSwerveNearestZeroPosition) (round (self r)) |}).
Proof. apply void_round_run. Qed.

Lemma publishSwervePositions_run (r : Robot M) :
  let this := self r in
  publishSwervePositions r =
  (tt, {| self := this;
          modules := modules r;
          events := events r ++
            [ModuleCall (m_frontRight this) GetSwervePosition;
             PutNumber "FR Swrv Pos" (getSwervePosition (modules r (m_frontRight this)));
             ModuleCall (m_frontLeft this) GetSwervePosition;
             PutNumber "FL Swrv Pos" (getSwervePosition (modules r (m_frontLeft this)));
             ModuleCall (m_rearLeft this) GetSwervePosition;
             PutNumber "RL Swrv Pos" (getSwervePosition (modules r (m_rearLeft this)));
             ModuleCall (m_rearRight this) GetSwervePosition;
             PutNumber "RR Swrv Pos" (getSwervePosition (modules r (m_rearRight this)))] |}).
Proof. apply get_round_run. Qed.

(** The zero capture: four captures, then, when [verbose], the four
    stored zeros are read back and published. *)
Lemma setSwerveZeroPosition_run (verbose : bool) (r : Robot M) :
  let this := self r in
  let captured := apply_to setZeroPosition (round this) (modules r) in
  setSwerveZeroPosition verbose r =
  (tt, {| self := this;
          modules := captured;
          events := events r ++
            [ModuleCall (m_frontRight this) SetZeroPosition;
             ModuleCall (m_frontLeft this) SetZeroPosition;
             ModuleCall (m_rearLeft this) SetZeroPosition;
             ModuleCall (m_rearRight this) SetZeroPosition] ++
            (if verbose then
               [ModuleCall (m_frontRight this) GetSwerveZeroPosition;
                PutNumber "FR Swrv Pos0" (getSwerveZeroPosition (captured (m_frontRight this)));
                ModuleCall (m_frontLeft this) GetSwerveZeroPosition;
                PutNumber "FL Swrv Pos0" (getSwerveZeroPosition (captured (m_frontLeft this)));
                ModuleCall (m_rearLeft this) GetSwerveZeroPosition;
                PutNumber "RL Swrv Pos0" (getSwerveZeroPosition (captured (m_rearLeft this)));
                ModuleCall (m_rearRight this) GetSwerveZeroPosition;
                PutNumber "RR Swrv Pos0" (getSwerveZeroPosition (captured (m_rearRight this)))]
             else []) |}).
Proof.
  intros this captured. unfold setSwerveZeroPosition, mSetZeroPosition.
  rewrite void_round_then. fold this. fold captured.
  destruct verbose.
  - unfold mGetSwerveZeroPosition. rewrite get_round_run.
    cbn [self modules events]. rewrite <- app_assoc. reflexivity.
  - reflexivity.
Qed.

(** C5. [setDriveSpeed v] calls [setDriveSpeed(v)], with that same [v],
    on the four modules and does nothing else; [setSwerveSpeed v] does the
    same with [setSwerveSpeed(v)].  The result is [tt], the dispatcher
    object is unchanged, earlier events stay, the four modules change by
    the called method only and every other module is untouched. *)
Theorem speeds_broadcast (v : double) (r : Robot M) :
  let this := self r in
  (issued (SwerveTrain.setDriveSpeed v) r =
     [ModuleCall (m_frontRight this) (SetDriveSpeed v);
      ModuleCall (m_frontLeft this) (SetDriveSpeed v);
      ModuleCall (m_rearLeft this) (SetDriveSpeed v);
      ModuleCall (m_rearRight this) (SetDriveSpeed v)] /\
   SwerveTrain.setDriveSpeed v r =
     (tt, {| self := this;
             modules := apply_to (SwerveModule.setDriveSpeed v) (round this) (modules r);
             events := events r ++ issued (SwerveTrain.setDriveSpeed v) r |}) /\
   forall p, p ∈ round this \/
     modules (exec (SwerveTrain.setDriveSpeed v) r) p = modules r p) /\
  (issued (SwerveTrain.setSwerveSpeed v) r =
     [ModuleCall (m_frontRight this) (SetSwerveSpeed v);
      ModuleCall (m_frontLeft this) (SetSwerveSpeed v);
      ModuleCall (m_rearLeft this) (SetSwerveSpeed v);
      ModuleCall (m_rearRight this) (SetSwerveSpeed v)] /\
   SwerveTrain.setSwerveSpeed v r =
     (tt, {| self := this;
             modules := apply_to (SwerveModule.setSwerveSpeed v) (round this) (modules r);
             events := events r ++ issued (SwerveTrain.setSwerveSpeed v) r |}) /\
   forall p, p ∈ round this \/
     modules (exec (SwerveTrain.setSwerveSpeed v) r) p = modules r p).
Proof.
  intros this.
  pose proof (setDriveSpeed_run v r) as Hd.
  pose proof (setSwerveSpeed_run v r) as Hs.
  fold this in Hd, Hs.
  assert (Ed : issued (SwerveTrain.setDriveSpeed v) r =
               map (fun p => ModuleCall p (SetDriveSpeed v)) (round this))
    by (apply issued_app; unfold exec; now rewrite Hd).
  assert (Es : issued (SwerveTrain.setSwerveSpeed v) r =
               map (fun p => ModuleCall p (SetSwerveSpeed v)) (round this))
    by (apply issued_app; unfold exec; now rewrite Hs).
  split; split; [exact Ed | | exact Es | ]; split.
  - rewrite Hd, Ed. reflexivity.
  - intros p. unfold exec. rewrite Hd. apply apply_to_other.
  - rewrite Hs, Es. reflexivity.
  - intros p. unfold exec. rewrite Hs. apply apply_to_other.
Qed.

(** C6. [setSwerveZeroPosition verbose] captures the zero of the four
    modules in every call, publishes the four stored zeros exactly when
    [verbose] is true, and calls no method that drives a motor. *)
Theorem setSwerveZeroPosition_capture (verbose : bool) (r : Robot M) :
  let this := self r in
  let captured := apply_to setZeroPosition (round this) (modules r) in
  let log := issued (setSwerveZeroPosition verbose) r in
  log =
    [ModuleCall (m_frontRight this) SetZeroPosition;
     ModuleCall (m_frontLeft this) SetZeroPosition;
     ModuleCall (m_rearLeft this) SetZeroPosition;
     ModuleCall (m_rearRight this) SetZeroPosition] ++
    (if verbose then
       [ModuleCall (m_frontRight this) GetSwerveZeroPosition;
        PutNumber "FR Swrv Pos0" (getSwerveZeroPosition (captured (m_frontRight this)));
        ModuleCall (m_frontLeft this) GetSwerveZeroPosition;
        PutNumber "FL Swrv Pos0" (getSwerveZeroPosition (captured (m_frontLeft this)));
        ModuleCall (m_rearLeft this) GetSwerveZeroPosition;
        PutNumber "RL Swrv Pos0" (getSwerveZeroPosition (captured (m_rearLeft this)));
        ModuleCall (m_rearRight this) GetSwerveZeroPosition;
        PutNumber "RR Swrv Pos0" (getSwerveZeroPosition (captured (m_rearRight this)))]
     else []) /\
  modules (exec (setSwerveZeroPosition verbose) r) = captured /\
  self (exec (setSwerveZeroPosition verbose) r) = this /\
  published log =
    (if verbose then
       [("FR Swrv Pos0", getSwerveZeroPosition (captured (m_frontRight this)));
        ("FL Swrv Pos0", getSwerveZeroPosition (captured (m_frontLeft this)));
        ("RL Swrv Pos0", getSwerveZeroPosition (captured (m_rearLeft this)));
        ("RR Swrv Pos0", getSwerveZeroPosition (captured (m_rearRight this)))]
     else []) /\
  (verbose = true <-> published log <> []) /\
  Forall (fun pc => is_motion (snd pc) = false) (module_calls log).
Proof.
  intros this captured log.
  pose proof (setSwerveZeroPosition_run verbose r) as H. cbv zeta in H.
  fold this in H. fold captured in H.
  assert (E : log = snd (fst (setSwerveZeroPosition verbose r), log))
    by reflexivity.
  unfold log at 2 in E.
  erewrite issued_app in E by (unfold exec; rewrite H; reflexivity).
  cbn [snd] in E. unfold exec. rewrite H. cbn [snd modules self].
  split; [exact E|]. rewrite E. clear E H.
  destruct verbose; cbn; repeat split; try congruence; repeat constructor.
Qed.

(** C8. Every bulk operation goes through the modules in the order front
    right, front left, rear left, rear right, once for each kind of call it
    makes; the calls and their arguments are fixed by the operation and the
    four pointers, whatever the modules answer.  A published value is read
    from the module it is named after. *)
Theorem bulk_operations_order (op : Operation) (r : Robot M) :
  let this := self r in
  module_calls (issued (run op) r) =
    flat_map (fun c => map (fun p => (p, c)) (round this)) (calls_of op) /\
  published (issued (run op) r) =
    match op with
    | PublishSwervePositionsOp =>
        zip ["FR Swrv Pos"; "FL Swrv Pos"; "RL Swrv Pos"; "RR Swrv Pos"]
            (map (fun p => getSwervePosition (modules r p)) (round this))
    | SetSwerveZeroPositionOp true =>
        zip ["FR Swrv Pos0"; "FL Swrv Pos0"; "RL Swrv Pos0"; "RR Swrv Pos0"]
            (map (fun p => getSwerveZeroPosition
                             (Nat.iter (count_occ Nat.eq_dec (round this) p)
                                setZeroPosition (modules r p)))
                 (round this))
    | _ => []
    end.
Proof.
  intros this. destruct op as [v|v|verbose| | |]; cbn [run].
  - erewrite issued_app by (unfold exec; rewrite setDriveSpeed_run; reflexivity).
    split; reflexivity.
  - erewrite issued_app by (unfold exec; rewrite setSwerveSpeed_run; reflexivity).
    split; reflexivity.
  - erewrite issued_app
      by (unfold exec; rewrite setSwerveZeroPosition_run; reflexivity).
    destruct verbose; split; try reflexivity.
    cbn -[count_occ]. rewrite <- !apply_to_at. reflexivity.
  - erewrite issued_app by (unfold exec; rewrite assumeZeroPosition_run; reflexivity).
    split; reflexivity.
  - erewrite issued_app
      by (unfold exec; rewrite assumeNearestZeroPosition_run; reflexivity).
    split; reflexivity.
  - erewrite issued_app
      by (unfold exec; rewrite publishSwervePositions_run; reflexivity).
    split; reflexivity.
Qed.

(** *** Regular commands *)

Lemma same_modules_refl (r : Robot M) : same_modules r r.
Proof. split; reflexivity. Qed.

Lemma regular_ret {A : Type} (a : A) : regular (ret a : Cmd M A).
Proof.
  split.
  - intros r. split; [reflexivity|].
    unfold issued, exec, ret. simpl. rewrite drop_all. now rewrite app_nil_r.
  - intros r1 r2 H. repeat split; try apply H.
    unfold issued, exec, ret. simpl. now rewrite !drop_all.
Qed.

Lemma regular_member (field : t -> ModuleRef) : regular (member field : Cmd M _).
Proof.
  split.
  - intros r. split; [reflexivity|].
    unfold issued, exec, member. simpl. rewrite drop_all. now rewrite app_nil_r.
  - intros r1 r2 H. repeat split; try apply H.
    + unfold member. simpl. now rewrite (proj1 H).
    + unfold issued, exec, member. simpl. now rewrite !drop_all.
Qed.

Lemma regular_call_void (method : M -> M) (c : Call) (p : ModuleRef) :
  regular (call_void method c p).
Proof.
  split.
  - intros r. split; [reflexivity|].
    unfold issued, exec, call_void. simpl. now rewrite drop_app_length.
  - intros r1 r2 [Hs Hm]. repeat split; try assumption.
    + unfold issued, exec, call_void. simpl. now rewrite !drop_app_length.
    + intros q. unfold exec, call_void. simpl.
      destruct (decide (p = q)) as [->|Hne].
      * rewrite !fn_lookup_insert. now rewrite Hm.
      * rewrite !fn_lookup_insert_ne by assumption. apply Hm.
Qed.

Lemma regular_call_get (method : M -> double) (c : Call) (p : ModuleRef) :
  regular (call_get method c p).
Proof.
  split.
  - intros r. split; [reflexivity|].
    unfold issued, exec, call_get. simpl. now rewrite drop_app_length.
  - intros r1 r2 [Hs Hm]. repeat split; try assumption.
    + unfold call_get. simpl. now rewrite Hm.
    + unfold issued, exec, call_get. simpl. now rewrite !drop_app_length.
Qed.

Lemma regular_PutNumber (key : string) (value : double) :
  regular (SmartDashboard_PutNumber key value : Cmd M unit).
Proof.
  split.
  - intros r. split; [reflexivity|].
    unfold issued, exec, SmartDashboard_PutNumber. simpl.
    now rewrite drop_app_length.
  - intros r1 r2 [Hs Hm]. repeat split; try assumption.
    unfold issued, exec, SmartDashboard_PutNumber. simpl.
    now rewrite !drop_app_length.
Qed.

(** What a sequence adds to the log is what its two parts add. *)
Lemma issued_bind {A B : Type} (c : Cmd M A) (k : A -> Cmd M B) (r : Robot M) :
  regular c -> (forall a, regular (k a)) ->
  issued (bind c k) r = issued c r ++ issued (k (fst (c r))) (exec c r).
Proof.
  intros [Hc _] Hk. apply issued_app.
  destruct (Hc r) as [_ E1].
  destruct (Hk (fst (c r))) as [Hk1 _]. destruct (Hk1 (exec c r)) as [_ E2].
  unfold exec at 1. unfold bind.
  rewrite (surjective_pairing (c r)).
  fold (exec c r). fold (exec (k (fst (c r))) (exec c r)).
  rewrite E2, E1. now rewrite app_assoc.
Qed.

Lemma exec_bind {A B : Type} (c : Cmd M A) (k : A -> Cmd M B) (r : Robot M) :
  exec (bind c k) r = exec (k (fst (c r))) (exec c r).
Proof. unfold exec, bind. now rewrite (surjective_pairing (c r)). Qed.

Lemma fst_bind {A B : Type} (c : Cmd M A) (k : A -> Cmd M B) (r : Robot M) :
  fst (bind c k r) = fst (k (fst (c r)) (exec c r)).
Proof. unfold exec, bind. now rewrite (surjective_pairing (c r)). Qed.

Lemma regular_bind {A B : Type} (c : Cmd M A) (k : A -> Cmd M B) :
  regular c -> (forall a, regular (k a)) -> regular (bind c k).
Proof.
  intros Hc Hk. split.
  - intros r. rewrite issued_bind, exec_bind by assumption.
    destruct Hc as [Hc _]. destruct (Hc r) as [S1 E1].
    destruct (Hk (fst (c r))) as [Hk1 _].
    destruct (Hk1 (exec c r)) as [S2 E2].
    split; [congruence|]. rewrite E2, E1. now rewrite app_assoc.
  - intros r1 r2 H.
    rewrite !issued_bind, !exec_bind, !fst_bind by assumption.
    destruct Hc as [_ Hc]. destruct (Hc r1 r2 H) as (F & L & S).
    rewrite <- F.
    destruct (Hk (fst (c r1))) as [_ Hk2].
    destruct (Hk2 _ _ S) as (F' & L' & S').
    repeat split; try apply S'; congruence.
Qed.

Create HintDb regular.
#[local] Hint Resolve regular_ret regular_member regular_call_void
  regular_call_get regular_PutNumber : regular.

Ltac regular_steps :=
  unfold mbind, mret, cmd_bind, cmd_ret;
  repeat (apply regular_bind; [|intros]);
  auto with regular.

Lemma regular_run (op : Operation) : regular (run op).
Proof.
  destruct op as [v|v|verbose| | |]; cbn [run].
  - unfold SwerveTrain.setDriveSpeed, mSetDriveSpeed. regular_steps.
  - unfold SwerveTrain.setSwerveSpeed, mSetSwerveSpeed. regular_steps.
  - unfold setSwerveZeroPosition, mSetZeroPosition, mGetSwerveZeroPosition.
    destruct verbose; regular_steps.
  - unfold assumeZeroPosition, mAssumeSwerveZeroPosition. regular_steps.
  - unfold assumeNearestZeroPosition, mAssumeSwerveNearestZeroPosition.
    regular_steps.
  - unfold publishSwervePositions, mGetSwervePosition. regular_steps.
Qed.

Section Stateless.
Context {R : Rounding}.
Variable R_controllerDeadzone : double.
Variable getControllerClockwiseREVRotationsFromCenter : Joystick -> double.
Variable drive : ModuleCommand -> M -> M.

#[local] Abbreviation run_public :=
  (SwerveTrain.run_public R_controllerDeadzone
     getControllerClockwiseREVRotationsFromCenter drive).
#[local] Abbreviation run_all :=
  (SwerveTrain.run_all R_controllerDeadzone
     getControllerClockwiseREVRotationsFromCenter drive).

Lemma regular_driveController (controller : Joystick) :
  regular (driveController R_controllerDeadzone
             getControllerClockwiseREVRotationsFromCenter drive controller).
Proof.
  unfold driveController.
  destruct (getControllerInDeadzone R_controllerDeadzone controller).
  - exact (regular_run (SetDriveSpeedOp 0)).
  - cbv zeta. unfold mDrive. regular_steps.
Qed.

Lemma regular_run_public (op : PublicOperation) : regular (run_public op).
Proof.
  destruct op as [op | controller]; cbn [SwerveTrain.run_public].
  - apply regular_run.
  - apply regular_driveController.
Qed.

Lemma regular_run_all (ticks : list PublicOperation) : regular (run_all ticks).
Proof.
  induction ticks as [|op rest IH]; cbn [SwerveTrain.run_all].
  - apply regular_ret.
  - unfold mbind, cmd_bind. apply regular_bind.
    + apply regular_run_public.
    + intros _. exact IH.
Qed.

(** C10. The dispatcher object is its four pointers, as the constructor
    stored them.  No public operation changes it, [driveController]
    included, and on two states with the same dispatcher object and the
    same modules an operation issues the same events, whatever was logged
    before, and leaves the same modules.  The same holds of the operations
    of any number of ticks run one after the other. *)
Theorem dispatcher_stateless (op : PublicOperation)
    (ticks : list PublicOperation) (r1 r2 : Robot M) :
  same_modules r1 r2 ->
  self r1 = new (m_frontRight (self r1)) (m_frontLeft (self r1))
                (m_rearLeft (self r1)) (m_rearRight (self r1)) /\
  (self (exec (run_public op) r1) = self r1 /\
   issued (run_public op) r1 = issued (run_public op) r2 /\
   same_modules (exec (run_public op) r1) (exec (run_public op) r2)) /\
  (self (exec (run_all ticks) r1) = self r1 /\
   issued (run_all ticks) r1 = issued (run_all ticks) r2 /\
   same_modules (exec (run_all ticks) r1) (exec (run_all ticks) r2)).
Proof.
  intros H.
  destruct (regular_run_public op) as [H1 H2].
  destruct (H1 r1) as [S1 _]. destruct (H2 r1 r2 H) as (_ & L & S).
  destruct (regular_run_all ticks) as [A1 A2].
  destruct (A1 r1) as [T1 _]. destruct (A2 r1 r2 H) as (_ & K & T).
  split; [now destruct (self r1)|].
  split; repeat split; try assumption; try apply S; try apply T.
Qed.

End Stateless.

End TrainFacts.

(** ** The nearest zero *)

Section NearestZero.
Import Actuator.
Variables mechanicalPeriod current zero : double.
Hypothesis period_pos : 0 < mechanicalPeriod.

#[local] Abbreviation k := (Qfloor ((current - zero) / mechanicalPeriod)).
#[local] Abbreviation below := (zero + inject_Z k * mechanicalPeriod).
#[local] Abbreviation above := (zero + inject_Z k * mechanicalPeriod + mechanicalPeriod).
#[local] Abbreviation candidate j := (zero + inject_Z j * mechanicalPeriod).

(** The two candidates compared are the ones around the current position. *)
Lemma nearestZero_bracket : below <= current /\ current < above.
Proof.
  pose proof (Qfloor_le ((current - zero) / mechanicalPeriod)) as Hlo.
  pose proof (Qlt_floor ((current - zero) / mechanicalPeriod)) as Hhi.
  rewrite inject_Z_plus in Hhi. change (inject_Z 1) with 1 in Hhi.
  assert (E : (current - zero) / mechanicalPeriod * mechanicalPeriod
              == current - zero) by (field; lra).
  apply (Qmult_le_compat_r _ _ mechanicalPeriod) in Hlo; [|lra].
  apply (Qmult_lt_compat_r _ _ mechanicalPeriod) in Hhi; [|lra].
  rewrite E in Hlo, Hhi. split; lra.
Qed.

(** The choice is the lower candidate when it is at most half a period
    away, otherwise the upper one, which then is. *)
Lemma nearestZero_cases :
  let target := nearestZero mechanicalPeriod current zero in
  (target = below /\ current - below <= above - current) \/
  (target = above /\ above - current <= current - below).
Proof.
  cbv zeta. unfold nearestZero.
  destruct (Qcompare_spec (current - below) (above - current)) as [E|E|E].
  - destruct (Qle_bool (Qabs below) (Qabs above)); [left | right];
      split; try reflexivity; lra.
  - left. split; [reflexivity | lra].
  - right. split; [reflexivity | lra].
Qed.

Lemma nearestZero_candidate :
  exists j : Z, nearestZero mechanicalPeriod current zero == candidate j.
Proof.
  destruct nearestZero_cases as [[-> _] | [-> _]].
  - exists k. reflexivity.
  - exists (k + 1)%Z. rewrite inject_Z_plus. change (inject_Z 1) with 1. ring.
Qed.

Lemma nearestZero_half :
  Qabs (nearestZero mechanicalPeriod current zero - current)
    <= mechanicalPeriod / 2.
Proof.
  pose proof nearestZero_bracket as [Hlo Hhi].
  apply Qabs_Qle_condition. unfold Qdiv. change (/ 2) with (1 # 2).
  destruct nearestZero_cases as [[-> H] | [-> H]]; split; lra.
Qed.

(** The distance of the choice is the smaller of the two distances. *)
Lemma nearestZero_distance :
  let d := Qabs (nearestZero mechanicalPeriod current zero - current) in
  d <= current - below /\ d <= above - current.
Proof.
  pose proof nearestZero_bracket as [Hlo Hhi]. cbv zeta.
  destruct nearestZero_cases as [[-> H] | [-> H]].
  - rewrite Qabs_neg by lra. split; lra.
  - rewrite Qabs_pos by lra. split; lra.
Qed.

Lemma candidate_le (i j : Z) : (i <= j)%Z -> candidate i <= candidate j.
Proof.
  intros H. rewrite Zle_Qle in H.
  apply (Qmult_le_compat_r _ _ mechanicalPeriod) in H; lra.
Qed.

(** No candidate is nearer than the choice. *)
Lemma nearestZero_nearest (j : Z) :
  Qabs (nearestZero mechanicalPeriod current zero - current)
    <= Qabs (candidate j - current).
Proof.
  pose proof nearestZero_bracket as [Hlo Hhi].
  pose proof nearestZero_distance as [D1 D2]. cbv zeta in D1, D2.
  destruct (Z_le_gt_dec j k) as [Hj|Hj].
  - pose proof (candidate_le j k Hj). rewrite (Qabs_neg (candidate j - current)); lra.
  - assert (Hj' : (k + 1 <= j)%Z) by lia.
    pose proof (candidate_le (k + 1) j Hj') as H.
    rewrite inject_Z_plus in H. change (inject_Z 1) with 1 in H.
    rewrite (Qabs_pos (candidate j - current)); lra.
Qed.

(** Of the candidates as near as the choice, the choice has the smallest
    absolute value. *)
Lemma nearestZero_tie (j : Z) :
  Qabs (candidate j - current)
    == Qabs (nearestZero mechanicalPeriod current zero - current) ->
  Qabs (nearestZero mechanicalPeriod current zero) <= Qabs (candidate j).
Proof.
  pose proof nearestZero_bracket as [Hlo Hhi].
  pose proof nearestZero_half as Hhalf.
  intros E. rewrite <- E in Hhalf.
  unfold Qdiv in Hhalf. change (/ 2) with (1 # 2) in Hhalf.
  assert (Hj : j = k \/ j = (k + 1)%Z).
  { destruct (Z_le_gt_dec j (k - 1)) as [H1|H1].
    - exfalso. assert (H1' : (j + 1 <= k)%Z) by lia.
      pose proof (candidate_le (j + 1) k H1') as H.
      rewrite inject_Z_plus in H. change (inject_Z 1) with 1 in H.
      rewrite (Qabs_neg (candidate j - current)) in Hhalf; lra.
    - destruct (Z_le_gt_dec (k + 2) j) as [H2|H2]; [|lia].
      exfalso. pose proof (candidate_le (k + 2) j H2) as H.
      rewrite inject_Z_plus in H. change (inject_Z 2) with 2 in H.
      rewrite (Qabs_pos (candidate j - current)) in Hhalf; lra. }
  revert E. unfold nearestZero.
  destruct (Qcompare_spec (current - below) (above - current)) as [C|C|C];
    destruct Hj as [-> | ->]; intros E;
    rewrite ?inject_Z_plus in *; change (inject_Z 1) with 1 in *.
  - destruct (Qle_bool (Qabs below) (Qabs above)) eqn:B;
      [apply Qle_refl | ].
    apply Qlt_le_weak, Qnot_le_lt. intros B'.
    apply Qle_bool_iff in B'. congruence.
  - destruct (Qle_bool (Qabs below) (Qabs above)) eqn:B.
    + apply Qle_bool_iff in B.
      setoid_replace (zero + (inject_Z k + 1) * mechanicalPeriod)
        with above using relation Qeq by ring. exact B.
    + setoid_replace (zero + (inject_Z k + 1) * mechanicalPeriod)
        with above using relation Qeq by ring. apply Qle_refl.
  - apply Qle_refl.
  - exfalso. rewrite (Qabs_neg (below - current)) in E by lra.
    rewrite (Qabs_pos (zero + (inject_Z k + 1) * mechanicalPeriod - current)) in E; lra.
  - exfalso. rewrite (Qabs_pos (above - current)) in E by lra.
    rewrite (Qabs_neg (below - current)) in E; lra.
  - setoid_replace (zero + (inject_Z k + 1) * mechanicalPeriod)
      with above using relation Qeq by ring. apply Qle_refl.
Qed.

End NearestZero.

(** ** Homing to the nearest zero *)

Section Homing.
Import Actuator SwerveModule SwerveTrain.
Variable mechanicalPeriod : double.

Lemma homeToNearestZero_iter (n : nat) (m : state) :
  Nat.iter (S n) (homeToNearestZero mechanicalPeriod) m =
  homeToNearestZero mechanicalPeriod m.
Proof.
  induction n as [|n IH]; [reflexivity|].
  change (Nat.iter (S (S n)) (homeToNearestZero mechanicalPeriod) m)
    with (homeToNearestZero mechanicalPeriod
            (Nat.iter (S n) (homeToNearestZero mechanicalPeriod) m)).
  rewrite IH. reflexivity.
Qed.

(** After the dispatcher's homing every module of the train has been
    commanded to the nearest zero of its own position and zero. *)
Lemma assumeNearestZeroPosition_reference (r : Robot state) (p : ModuleRef) :
  p ∈ round (self r) ->
  modules (exec (assumeNearestZeroPosition (I := actuator mechanicalPeriod)) r) p =
  homeToNearestZero mechanicalPeriod (modules r p).
Proof.
  intros Hp. unfold exec.
  rewrite (assumeNearestZeroPosition_run (I := actuator mechanicalPeriod)).
  cbn [snd modules]. rewrite apply_to_at.
  apply list_elem_of_In in Hp.
  apply (count_occ_In Nat.eq_dec) in Hp.
  destruct (count_occ Nat.eq_dec (round (self r)) p) as [|n]; [lia|].
  apply homeToNearestZero_iter.
Qed.

Lemma captureZero_iter (n : nat) (m : state) :
  Nat.iter (S n) captureZero m = captureZero m.
Proof.
  induction n as [|n IH]; [reflexivity|].
  change (Nat.iter (S (S n)) captureZero m)
    with (captureZero (Nat.iter (S n) captureZero m)).
  rewrite IH. reflexivity.
Qed.

(** The zero that the capture stores, and that the verbose capture
    publishes, is the raw encoder reading of the module. *)
Lemma captured_zero_is_reading (r : Robot state) (p : ModuleRef) :
  p ∈ round (self r) ->
  swerveZeroPosition (apply_to captureZero (round (self r)) (modules r) p) =
  swervePosition (modules r p).
Proof.
  intros Hp. rewrite apply_to_at.
  apply list_elem_of_In in Hp.
  apply (count_occ_In Nat.eq_dec) in Hp.
  destruct (count_occ Nat.eq_dec (round (self r)) p) as [|n]; [lia|].
  now rewrite captureZero_iter.
Qed.

(** C1. For a positive mechanical period, the target that
    [assumeNearestZeroPosition] commands to a module of the train is the
    module's zero plus a whole number of periods, and it is at most half a
    period away from the module's position. *)
Theorem assumeNearestZeroPosition_half_period (r : Robot state) (p : ModuleRef) :
  0 < mechanicalPeriod ->
  p ∈ round (self r) ->
  let before := modules r p in
  let after :=
    modules (exec (assumeNearestZeroPosition (I := actuator mechanicalPeriod)) r) p in
  exists target : double,
    swerveReference after = Some target /\
    (exists j : Z,
       target == swerveZeroPosition before + inject_Z j * mechanicalPeriod) /\
    Qabs (target - swervePosition before) <= mechanicalPeriod / 2.
Proof.
  intros Hpos Hp before after.
  exists (nearestZero mechanicalPeriod (swervePosition before)
            (swerveZeroPosition before)).
  split; [|split].
  - unfold after. rewrite assumeNearestZeroPosition_reference by assumption.
    reflexivity.
  - apply nearestZero_candidate.
  - now apply nearestZero_half.
Qed.

End Homing.

Lemma assumeNearestZeroPosition_half_period_witness :
  exists target : double,
    Actuator.swerveReference
      (SwerveTrain.modules
         (SwerveTrain.exec
            (SwerveTrain.assumeNearestZeroPosition (I := Actuator.actuator 4096))
            (Actuator.example_robot [])) 1%nat) = Some target /\
    (exists j : Z, target == 1000 + inject_Z j * 4096) /\
    Qabs (target - 3200) <= 4096 / 2.
Proof.
  apply (assumeNearestZeroPosition_half_period 4096 (Actuator.example_robot []) 1%nat).
  - reflexivity.
  - apply list_elem_of_here.
Defined.

(** Scenario D of the specification: a module reads 1000 at the capture
    and is then homed to its zero. *)
Example capture_then_home_scenario_D :
  let m := {| Actuator.driveSpeed := 0; Actuator.swerveSpeed := 0;
              Actuator.swervePosition := 1000;
              Actuator.swerveZeroPosition := 0;
              Actuator.swerveReference := None |} in
  let r := {| SwerveTrain.self := SwerveTrain.new 1%nat 2%nat 3%nat 4%nat;
              SwerveTrain.modules := fun _ => m;
              SwerveTrain.events := [] |} in
  let r' := SwerveTrain.exec
              (SwerveTrain.setSwerveZeroPosition (I := Actuator.actuator 4096) false ;;
               SwerveTrain.assumeZeroPosition (I := Actuator.actuator 4096)) r in
  Actuator.swerveZeroPosition (SwerveTrain.modules r' 1%nat) = 1000 /\
  Actuator.swerveReference (SwerveTrain.modules r' 1%nat) = Some 1000.
Proof. vm_compute. split; reflexivity. Qed.

(** The robot of the example is sent to 5096, which is 1896 away. *)
Example assumeNearestZeroPosition_example :
  Actuator.swerveReference
    (SwerveTrain.modules
       (SwerveTrain.exec
          (SwerveTrain.assumeNearestZeroPosition (I := Actuator.actuator 4096))
          (Actuator.example_robot [])) 3%nat) = Some 5096.
Proof. vm_compute. reflexivity. Qed.

(** ** The unit conversion *)

Section RoundTrip.
Import Actuator.
Context {R : Rounding}.

(** [a] is within the relative error [e] of [b]. *)
#[local] Abbreviation close e a b := (Qabs (a - b) <= e * Qabs b).

Lemma close_refl (a : Q) : close 0 a a.
Proof.
  assert (E : a - a == 0) by ring. rewrite E. change (Qabs 0) with 0. lra.
Qed.

Lemma close_eq (e a b b' : Q) : b == b' -> close e a b -> close e a b'.
Proof. intros E H. now rewrite <- E. Qed.

(** Rounding adds one rounding error. *)
Lemma close_rnd (e a b : Q) :
  0 <= e -> close e a b -> close (grow e) (rnd a) b.
Proof.
  intros He H. unfold grow.
  pose proof (rnd_error a) as Hr.
  pose proof unit_roundoff_bounds as [Hu _].
  pose proof (Qabs_nonneg b) as Hb.
  assert (E : rnd a - b == (rnd a - a) + (a - b)) by ring.
  rewrite E.
  pose proof (Qabs_triangle (rnd a - a) (a - b)) as T1.
  assert (E' : a == b + (a - b)) by ring.
  pose proof (Qabs_triangle b (a - b)) as T2. rewrite <- E' in T2.
  assert (N : 0 <= unit_roundoff * (Qabs b + Qabs (a - b) - Qabs a))
    by (apply Qmult_le_0_compat; lra).
  assert (N' : 0 <= unit_roundoff * (e * Qabs b - Qabs (a - b)))
    by (apply Qmult_le_0_compat; lra).
  lra.
Qed.

(** Multiplying both sides keeps the relative error. *)
Lemma close_mult (e a b c : Q) : close e a b -> close e (a * c) (b * c).
Proof.
  intros H. assert (E : a * c - b * c == (a - b) * c) by ring.
  rewrite E, !Qabs_Qmult.
  apply (Qmult_le_compat_r _ _ (Qabs c)) in H; [|apply Qabs_nonneg].
  lra.
Qed.

Lemma close_div (e a b c : Q) : close e a b -> close e (a / c) (b / c).
Proof. apply close_mult. Qed.

Lemma two_pi_nonzero : ~ two_pi == 0.
Proof. discriminate. Qed.

(** The error of the four rounded operations of the round trip. *)
Lemma round_trip_error : grow (grow (grow (grow 0))) <= 5 * unit_roundoff.
Proof. vm_compute. discriminate. Qed.

(** C4. Converting an angle to rotation units and back returns the angle
    up to the rounding of the four operations: the relative error is at
    most five units of roundoff. *)
Theorem conversion_round_trip (mechanicalPeriod angle : double) :
  ~ mechanicalPeriod == 0 ->
  Qabs (angleFromUnits mechanicalPeriod (unitsFromAngle mechanicalPeriod angle)
        - angle)
    <= 5 * unit_roundoff * Qabs angle.
Proof.
  intros HP. pose proof two_pi_nonzero as Hpi.
  pose proof unit_roundoff_bounds as [Hu _].
  assert (G1 : 0 <= grow 0) by (vm_compute; discriminate).
  assert (G2 : 0 <= grow (grow 0)) by (vm_compute; discriminate).
  assert (G3 : 0 <= grow (grow (grow 0))) by (vm_compute; discriminate).
  unfold angleFromUnits, unitsFromAngle, dmul, ddiv.
  assert (S1 : close (grow 0) (rnd (angle / two_pi)) (angle / two_pi))
    by (apply close_rnd; [lra | apply close_refl]).
  assert (S2 : close (grow (grow 0))
                 (rnd (rnd (angle / two_pi) * mechanicalPeriod))
                 (angle / two_pi * mechanicalPeriod))
    by (apply close_rnd; [exact G1 | now apply close_mult]).
  assert (S3 : close (grow (grow (grow 0)))
                 (rnd (rnd (rnd (angle / two_pi) * mechanicalPeriod)
                       / mechanicalPeriod))
                 (angle / two_pi)).
  { apply close_rnd; [exact G2|].
    apply (close_eq _ _ (angle / two_pi * mechanicalPeriod / mechanicalPeriod));
      [now field | now apply close_div]. }
  assert (S4 : close (grow (grow (grow (grow 0))))
                 (rnd (rnd (rnd (rnd (angle / two_pi) * mechanicalPeriod)
                            / mechanicalPeriod) * two_pi))
                 angle).
  { apply close_rnd; [exact G3|].
    apply (close_eq _ _ (angle / two_pi * two_pi));
      [now field | now apply close_mult]. }
  eapply Qle_trans; [exact S4|].
  apply Qmult_le_compat_r; [apply round_trip_error | apply Qabs_nonneg].
Qed.

End RoundTrip.

(** Without rounding the round trip is exact. *)
Lemma conversion_round_trip_exact (mechanicalPeriod angle : double) :
  ~ mechanicalPeriod == 0 ->
  @Actuator.angleFromUnits exact_rounding mechanicalPeriod
    (@Actuator.unitsFromAngle exact_rounding mechanicalPeriod angle) == angle.
Proof.
  intros HP. unfold Actuator.angleFromUnits, Actuator.unitsFromAngle, dmul, ddiv.
  simpl. field. split; [discriminate | exact HP].
Qed.

(** Scenarios B and C of the specification: with a period of 4096 the
    angle 0 is 0 units and a quarter turn is 1024 units. *)
Example unitsFromAngle_scenarios :
  @Actuator.unitsFromAngle exact_rounding 4096 0 == 0 /\
  @Actuator.unitsFromAngle exact_rounding 4096 (Actuator.M_PI / 2) == 1024.
Proof. split; reflexivity. Qed.

Lemma conversion_round_trip_witness :
  let angle := round_binary64 (1 # 10) in
  Qabs (@Actuator.angleFromUnits binary64_rounding 4096
          (@Actuator.unitsFromAngle binary64_rounding 4096 angle) - angle)
    <= 5 * unit_roundoff * Qabs angle.
Proof.
  apply (@conversion_round_trip binary64_rounding 4096 (round_binary64 (1 # 10))).
  discriminate.
Defined.

(** In binary64 the round trip of 0.1 through a period of 4096 misses by
    [2^-56]: the conversions are inverse up to rounding only. *)
Example conversion_round_trip_inexact :
  let angle := round_binary64 (1 # 10) in
  @Actuator.angleFromUnits binary64_rounding 4096
    (@Actuator.unitsFromAngle binary64_rounding 4096 angle) - angle
  == - (1 # 2 ^ 56).
Proof. vm_compute. reflexivity. Qed.

(** A module of the example that receives a ModuleCommand: the drive
    output and the azimuth target are set. *)
Definition example_drive (command : SwerveModule.ModuleCommand)
    (m : Actuator.state) : Actuator.state :=
  Actuator.set_reference (SwerveModule.swerveTarget command)
    (Actuator.set_driveSpeed (SwerveModule.driveSpeed command) m).

(** Two runs on the example robot, one on an empty log and one after a
    publication: a drive from a stick pushed out of a deadzone of 0.2,
    and three ticks, a verbose zero capture, a drive and a centred
    controller. *)
Lemma dispatcher_stateless_witness :
  let pushed := {| GetX := 1 # 2; GetY := - (3 # 20); GetZ := 1 # 20 |} in
  let centred := {| GetX := 1 # 10; GetY := - (3 # 20); GetZ := 1 # 20 |} in
  let r1 := Actuator.example_robot [] in
  let r2 := Actuator.example_robot [SwerveTrain.PutNumber "FR Swrv Pos" 3200] in
  let run op :=
    SwerveTrain.run_public (I := Actuator.actuator 4096) (R := binary64_rounding)
      (1 # 5) (fun c => 1024 * GetX c) example_drive op in
  let run_all ticks :=
    SwerveTrain.run_all (I := Actuator.actuator 4096) (R := binary64_rounding)
      (1 # 5) (fun c => 1024 * GetX c) example_drive ticks in
  let op := SwerveTrain.DriveController pushed in
  let ticks := [SwerveTrain.Bulk (SwerveTrain.SetSwerveZeroPositionOp true);
                SwerveTrain.DriveController pushed;
                SwerveTrain.DriveController centred] in
  SwerveTrain.self r1 =
    SwerveTrain.new (SwerveTrain.m_frontRight (SwerveTrain.self r1))
      (SwerveTrain.m_frontLeft (SwerveTrain.self r1))
      (SwerveTrain.m_rearLeft (SwerveTrain.self r1))
      (SwerveTrain.m_rearRight (SwerveTrain.self r1)) /\
  (SwerveTrain.self (SwerveTrain.exec (run op) r1) = SwerveTrain.self r1 /\
   SwerveTrain.issued (run op) r1 = SwerveTrain.issued (run op) r2 /\
   SwerveTrain.same_modules (SwerveTrain.exec (run op) r1)
     (SwerveTrain.exec (run op) r2)) /\
  (SwerveTrain.self (SwerveTrain.exec (run_all ticks) r1) = SwerveTrain.self r1 /\
   SwerveTrain.issued (run_all ticks) r1 = SwerveTrain.issued (run_all ticks) r2 /\
   SwerveTrain.same_modules (SwerveTrain.exec (run_all ticks) r1)
     (SwerveTrain.exec (run_all ticks) r2)).
Proof.
  intros pushed centred r1 r2 run run_all op ticks.
  apply (dispatcher_stateless (I := Actuator.actuator 4096)
           (R := binary64_rounding) (1 # 5) (fun c => 1024 * GetX c)
           example_drive op ticks r1 r2).
  split; [reflexivity | intros p; reflexivity].
Defined.

(** What the drive of the example issues: the same command, of magnitude
    0.65 and target 512, to the four modules in order. *)
Example driveController_example :
  let pushed := {| GetX := 1 # 2; GetY := - (3 # 20); GetZ := 1 # 20 |} in
  let command := {| SwerveModule.driveSpeed :=
                      @getControllerAbsoluteMagnitude binary64_rounding pushed;
                    SwerveModule.swerveTarget := 1024 * (1 # 2) |} in
  SwerveTrain.issued
    (SwerveTrain.driveController (I := Actuator.actuator 4096)
       (R := binary64_rounding) (1 # 5) (fun c => 1024 * GetX c)
       example_drive pushed)
    (Actuator.example_robot []) =
  [SwerveTrain.ModuleCall 1%nat (SwerveModule.Drive command);
   SwerveTrain.ModuleCall 2%nat (SwerveModule.Drive command);
   SwerveTrain.ModuleCall 3%nat (SwerveModule.Drive command);
   SwerveTrain.ModuleCall 4%nat (SwerveModule.Drive command)].
Proof. reflexivity. Qed.

(** * Further properties of the controller functions *)

Lemma dlt_compat (a a' b : double) : a == a' -> dlt a b = dlt a' b.
Proof. intros E. unfold dlt. now rewrite E. Qed.

Lemma getControllerInDeadzone_inside (zone : double) (controller : Joystick) :
  getControllerInDeadzone zone controller = true ->
  Qabs (GetX controller) < zone /\
  Qabs (GetY controller) < zone /\
  Qabs (GetZ controller) < zone.
Proof.
  unfold getControllerInDeadzone, abs. rewrite <- !dlt_spec.
  destruct (dlt (Qabs (GetX controller)) zone),
           (dlt (Qabs (GetY controller)) zone),
           (dlt (Qabs (GetZ controller)) zone); simpl; intros H;
    repeat split; congruence.
Qed.

Lemma getControllerInDeadzone_false_inv (zone : double) (controller : Joystick) :
  getControllerInDeadzone zone controller = false ->
  zone <= Qabs (GetX controller) \/
  zone <= Qabs (GetY controller) \/
  zone <= Qabs (GetZ controller).
Proof.
  unfold getControllerInDeadzone, abs. rewrite <- !dlt_false.
  destruct (dlt (Qabs (GetX controller)) zone),
           (dlt (Qabs (GetY controller)) zone),
           (dlt (Qabs (GetZ controller)) zone); simpl; intros H;
    try discriminate; auto.
Qed.

Lemma Qabs_flip (f : bool) (x : Q) : Qabs (if f then - x else x) == Qabs x.
Proof. destruct f; [apply Qabs_opp | reflexivity]. Qed.

(** X1. A wider deadzone holds every reading a narrower one holds. *)
Theorem getControllerInDeadzone_monotone (zone zone' : double) (controller : Joystick) :
  zone <= zone' ->
  getControllerInDeadzone zone controller = true ->
  getControllerInDeadzone zone' controller = true.
Proof.
  intros Hz H. apply getControllerInDeadzone_inside in H.
  destruct H as (Hx & Hy & Hzz).
  unfold getControllerInDeadzone, abs.
  assert (Ex : dlt (Qabs (GetX controller)) zone' = true) by (apply dlt_spec; lra).
  assert (Ey : dlt (Qabs (GetY controller)) zone' = true) by (apply dlt_spec; lra).
  assert (Ez : dlt (Qabs (GetZ controller)) zone' = true) by (apply dlt_spec; lra).
  now rewrite Ex, Ey, Ez.
Qed.

Lemma getControllerInDeadzone_monotone_witness :
  getControllerInDeadzone (3 # 10)
    {| GetX := 1 # 10; GetY := - (3 # 20); GetZ := 1 # 20 |} = true.
Proof.
  apply (getControllerInDeadzone_monotone (1 # 5) (3 # 10)).
  - discriminate.
  - reflexivity.
Defined.

(** X2. Both controller functions see the axes through their absolute
    values only: negating any of the axes changes neither the deadzone
    check nor the magnitude. *)
Theorem controller_sign_symmetry {R : Rounding} (zone : double)
    (fx fy fz : bool) (controller : Joystick) :
  getControllerInDeadzone zone (mirrored fx fy fz controller) =
    getControllerInDeadzone zone controller /\
  getControllerAbsoluteMagnitude (mirrored fx fy fz controller) ==
    getControllerAbsoluteMagnitude controller.
Proof.
  split.
  - unfold getControllerInDeadzone, abs.
    rewrite (dlt_compat (Qabs (GetX (mirrored fx fy fz controller)))
               (Qabs (GetX controller)) zone (Qabs_flip fx _)).
    rewrite (dlt_compat (Qabs (GetY (mirrored fx fy fz controller)))
               (Qabs (GetY controller)) zone (Qabs_flip fy _)).
    rewrite (dlt_compat (Qabs (GetZ (mirrored fx fy fz controller)))
               (Qabs (GetZ controller)) zone (Qabs_flip fz _)).
    reflexivity.
  - unfold getControllerAbsoluteMagnitude, abs, dadd.
    apply rnd_compat.
    rewrite (Qabs_flip fx (GetX controller) : Qabs (GetX (mirrored fx fy fz controller)) == _).
    rewrite (Qabs_flip fy (GetY controller) : Qabs (GetY (mirrored fx fy fz controller)) == _).
    reflexivity.
Qed.

(** X3. A reading inside the deadzone has a magnitude below twice the
    deadzone, up to the rounding of the sum. *)
Theorem deadzone_bounds_magnitude {R : Rounding} (zone : double) (controller : Joystick) :
  getControllerInDeadzone zone controller = true ->
  getControllerAbsoluteMagnitude controller < (1 + unit_roundoff) * (2 * zone).
Proof.
  intros H. apply getControllerInDeadzone_inside in H.
  destruct H as (Hx & Hy & _).
  unfold getControllerAbsoluteMagnitude, abs, dadd.
  pose proof (Qabs_nonneg (GetX controller)) as Nx.
  pose proof (Qabs_nonneg (GetY controller)) as Ny.
  pose proof (rnd_between (Qabs (GetX controller) + Qabs (GetY controller))) as [_ Hr].
  rewrite (Qabs_pos (Qabs (GetX controller) + Qabs (GetY controller))) in Hr by lra.
  pose proof unit_roundoff_bounds as [Hu _].
  set (s := Qabs (GetX controller) + Qabs (GetY controller)) in *.
  assert (Hs : s < 2 * zone) by (unfold s; lra).
  assert (N : 0 <= unit_roundoff * (2 * zone - s))
    by (apply Qmult_le_0_compat; lra).
  lra.
Qed.

Lemma deadzone_bounds_magnitude_witness :
  @getControllerAbsoluteMagnitude binary64_rounding
    {| GetX := 1 # 10; GetY := - (3 # 20); GetZ := 1 # 20 |}
  < (1 + unit_roundoff) * (2 * (1 # 5)).
Proof.
  apply (@deadzone_bounds_magnitude binary64_rounding (1 # 5)). reflexivity.
Defined.

(** X4. When the twist axis is inside the deadzone and the check fails,
    the stick is what is outside: the magnitude is then at least the
    deadzone, up to the rounding of the sum. *)
Theorem outside_deadzone_magnitude {R : Rounding} (zone : double) (controller : Joystick) :
  Qabs (GetZ controller) < zone ->
  getControllerInDeadzone zone controller = false ->
  (1 - unit_roundoff) * zone <= getControllerAbsoluteMagnitude controller.
Proof.
  intros Hz H. apply getControllerInDeadzone_false_inv in H.
  unfold getControllerAbsoluteMagnitude, abs, dadd.
  pose proof (Qabs_nonneg (GetX controller)) as Nx.
  pose proof (Qabs_nonneg (GetY controller)) as Ny.
  pose proof (rnd_between (Qabs (GetX controller) + Qabs (GetY controller))) as [Hr _].
  rewrite (Qabs_pos (Qabs (GetX controller) + Qabs (GetY controller))) in Hr by lra.
  pose proof unit_roundoff_bounds as [Hu Hu'].
  set (s := Qabs (GetX controller) + Qabs (GetY controller)) in *.
  assert (Hs : zone <= s) by (unfold s; destruct H as [H | [H | H]]; lra).
  assert (N : 0 <= (1 - unit_roundoff) * (s - zone))
    by (apply Qmult_le_0_compat; lra).
  lra.
Qed.

Lemma outside_deadzone_magnitude_witness :
  (1 - unit_roundoff) * (1 # 5) <=
  @getControllerAbsoluteMagnitude binary64_rounding
    {| GetX := 1 # 2; GetY := - (3 # 20); GetZ := 1 # 20 |}.
Proof.
  apply (@outside_deadzone_magnitude binary64_rounding (1 # 5)).
  - reflexivity.
  - reflexivity.
Defined.

Lemma Qabs_zero_inv (x : Q) : Qabs x <= 0 -> x == 0.
Proof.
  intros H. apply Qabs_Qle_condition in H. destruct H as [H1 H2].
  apply Qle_antisym; lra.
Qed.

Lemma Qabs_square (x : Q) : Qabs x * Qabs x == x * x.
Proof. apply Qabs_case; intros _; ring. Qed.

Lemma Qsquare_le (a b : Q) : 0 <= a -> a <= b -> a * a <= b * b.
Proof.
  intros Ha Hab.
  assert (H1 : a * a <= b * a) by (apply Qmult_le_compat_r; lra).
  assert (H2 : a * b <= b * b) by (apply Qmult_le_compat_r; lra).
  lra.
Qed.

Section MagnitudeFacts.
Context {R : Rounding}.
Variable controller : Joystick.

#[local] Abbreviation sum := (Qabs (GetX controller) + Qabs (GetY controller)).

(** The magnitude is within one rounding of the sum of the absolute
    values, which is not negative. *)
Lemma magnitude_between :
  0 <= sum /\
  (1 - unit_roundoff) * sum <= getControllerAbsoluteMagnitude controller /\
  getControllerAbsoluteMagnitude controller <= (1 + unit_roundoff) * sum.
Proof.
  pose proof (Qabs_nonneg (GetX controller)) as Nx.
  pose proof (Qabs_nonneg (GetY controller)) as Ny.
  unfold getControllerAbsoluteMagnitude, abs, dadd.
  pose proof (rnd_between sum) as [H1 H2].
  rewrite (Qabs_pos sum) in H1, H2 by lra.
  repeat split; lra.
Qed.

(** X5. The magnitude is zero at the centre of the stick and nowhere
    else. *)
Theorem magnitude_zero_iff :
  getControllerAbsoluteMagnitude controller == 0 <->
  GetX controller == 0 /\ GetY controller == 0.
Proof.
  pose proof (Qabs_nonneg (GetX controller)) as Nx.
  pose proof (Qabs_nonneg (GetY controller)) as Ny.
  pose proof magnitude_between as (Hs & Hlo & Hhi).
  pose proof unit_roundoff_bounds as [Hu Hu'].
  split.
  - intros E.
    assert (N : 0 <= ((1 # 1000) - unit_roundoff) * sum)
      by (apply Qmult_le_0_compat; lra).
    split; apply Qabs_zero_inv; lra.
  - intros [Ex Ey]. unfold getControllerAbsoluteMagnitude, abs, dadd.
    rewrite <- rnd_zero. apply rnd_compat. rewrite Ex, Ey. reflexivity.
Qed.

(** X6. The magnitude is never below the Euclidean length of the stick
    vector and never above the square root of two times it, up to the
    rounding of the sum; stated on the squares. *)
Theorem magnitude_euclidean_bounds :
  let x := GetX controller in
  let y := GetY controller in
  let m := getControllerAbsoluteMagnitude controller in
  (1 - unit_roundoff) * (1 - unit_roundoff) * (x * x + y * y) <= m * m /\
  m * m <= (1 + unit_roundoff) * (1 + unit_roundoff) * (2 * (x * x + y * y)).
Proof.
  intros x y m.
  pose proof (Qabs_nonneg x) as Nx. pose proof (Qabs_nonneg y) as Ny.
  pose proof magnitude_between as (Hs & Hlo & Hhi). fold x y m in Hs, Hlo, Hhi.
  pose proof unit_roundoff_bounds as [Hu Hu'].
  pose proof (Qabs_square x) as Sx. pose proof (Qabs_square y) as Sy.
  set (a := Qabs x) in *. set (b := Qabs y) in *.
  assert (L0 : 0 <= (1 - unit_roundoff) * (a + b))
    by (apply Qmult_le_0_compat; lra).
  assert (M0 : 0 <= m) by lra.
  pose proof (Qsquare_le _ _ L0 Hlo) as L.
  pose proof (Qsquare_le _ _ M0 Hhi) as U.
  assert (P : 0 <= a * b) by (apply Qmult_le_0_compat; lra).
  assert (C1 : 0 <= (1 - unit_roundoff) * (1 - unit_roundoff))
    by (apply Qmult_le_0_compat; lra).
  assert (C2 : 0 <= (1 + unit_roundoff) * (1 + unit_roundoff))
    by (apply Qmult_le_0_compat; lra).
  assert (D : 0 <= (a - b) * (a - b)).
  { destruct (Qlt_le_dec a b).
    - setoid_replace ((a - b) * (a - b)) with ((b - a) * (b - a))
        using relation Qeq by ring.
      apply Qmult_le_0_compat; lra.
    - apply Qmult_le_0_compat; lra. }
  split.
  - assert (T : 0 <= (1 - unit_roundoff) * (1 - unit_roundoff) * (2 * (a * b)))
      by (apply Qmult_le_0_compat; lra).
    assert (E : (1 - unit_roundoff) * (a + b) * ((1 - unit_roundoff) * (a + b))
                == (1 - unit_roundoff) * (1 - unit_roundoff) * (x * x + y * y)
                   + (1 - unit_roundoff) * (1 - unit_roundoff) * (2 * (a * b)))
      by (rewrite <- Sx, <- Sy; ring).
    rewrite E in L. lra.
  - assert (T : 0 <= (1 + unit_roundoff) * (1 + unit_roundoff) * ((a - b) * (a - b)))
      by (apply Qmult_le_0_compat; lra).
    assert (E : (1 + unit_roundoff) * (a + b) * ((1 + unit_roundoff) * (a + b))
                == (1 + unit_roundoff) * (1 + unit_roundoff) * (2 * (x * x + y * y))
                   - (1 + unit_roundoff) * (1 + unit_roundoff) * ((a - b) * (a - b)))
      by (rewrite <- Sx, <- Sy; ring).
    rewrite E in U. lra.
Qed.

(** X7. For axes normalised to [-1, 1] the magnitude lies between 0 and
    2, up to the rounding of the sum, and it is not confined to the unit
    range of a motor output: it is at least the sum of the two absolute
    values less one rounding, so with both axes at full deflection it is
    at least [2 (1 - 2^-53)], which is above 1. *)
Theorem magnitude_range :
  Qabs (GetX controller) <= 1 ->
  Qabs (GetY controller) <= 1 ->
  (0 <= getControllerAbsoluteMagnitude controller /\
   getControllerAbsoluteMagnitude controller <= (1 + unit_roundoff) * 2) /\
  (1 - unit_roundoff) * (Qabs (GetX controller) + Qabs (GetY controller))
    <= getControllerAbsoluteMagnitude controller /\
  (Qabs (GetX controller) == 1 -> Qabs (GetY controller) == 1 ->
   (1 - unit_roundoff) * 2 <= getControllerAbsoluteMagnitude controller /\
   1 < getControllerAbsoluteMagnitude controller).
Proof.
  intros Hx Hy.
  pose proof magnitude_between as (Hs & Hlo & Hhi).
  pose proof unit_roundoff_bounds as [Hu Hu'].
  assert (N : 0 <= (1 - unit_roundoff) * sum)
    by (apply Qmult_le_0_compat; lra).
  assert (N' : 0 <= unit_roundoff * (2 - sum))
    by (apply Qmult_le_0_compat; lra).
  split; [split; lra|]. split; [exact Hlo|].
  intros Ex Ey. rewrite Ex, Ey in Hlo.
  assert (E2 : (1 - unit_roundoff) * (1 + 1) == (1 - unit_roundoff) * 2) by ring.
  rewrite E2 in Hlo. split; lra.
Qed.

End MagnitudeFacts.

Lemma magnitude_range_witness :
  let corner := {| GetX := 1; GetY := - (1); GetZ := 0 |} in
  (0 <= @getControllerAbsoluteMagnitude binary64_rounding corner /\
   @getControllerAbsoluteMagnitude binary64_rounding corner
     <= (1 + unit_roundoff) * 2) /\
  (1 - unit_roundoff) * 2
    <= @getControllerAbsoluteMagnitude binary64_rounding corner /\
  1 < @getControllerAbsoluteMagnitude binary64_rounding corner.
Proof.
  intros corner.
  pose proof (@magnitude_range binary64_rounding corner) as H.
  destruct H as (Hrange & _ & Hcorner); [discriminate | discriminate |].
  destruct Hcorner as [Hlow Habove]; [reflexivity | reflexivity |].
  exact (conj Hrange (conj Hlow Habove)).
Defined.

(** * Further properties of the Limelight reader *)

Section LimelightLookups.
Import Limelight.

Lemma GetNumber_insert (key : string) (d def : double) (table : gmap string Value) :
  fst (GetNumber key def (<[key := NT_Double d]> table)) = d.
Proof. unfold GetNumber. now rewrite lookup_insert_eq. Qed.

Lemma GetNumber_delete (key : string) (def : double) (table : gmap string Value) :
  fst (GetNumber key def (delete key table)) = def.
Proof. unfold GetNumber. now rewrite lookup_delete_eq. Qed.

Lemma GetNumber_insert_ne (key key' : string) (v : Value) (def : double)
    (table : gmap string Value) :
  key <> key' ->
  fst (GetNumber key' def (<[key := v]> table)) = fst (GetNumber key' def table).
Proof.
  intros H. unfold GetNumber. rewrite lookup_insert_ne by exact H.
  destruct (table !! key') as [[]|]; reflexivity.
Qed.

Lemma GetNumber_delete_ne (key key' : string) (def : double)
    (table : gmap string Value) :
  key <> key' ->
  fst (GetNumber key' def (delete key table)) = fst (GetNumber key' def table).
Proof.
  intros H. unfold GetNumber. rewrite lookup_delete_ne by exact H.
  destruct (table !! key') as [[]|]; reflexivity.
Qed.

Lemma fst_target (table : gmap string Value) :
  fst (target table) = bool_of_double (fst (GetNumber "tv" 0 table)).
Proof.
  unfold target. now rewrite (surjective_pairing (GetNumber "tv" 0 table)).
Qed.

(** X8. A number written under "tx", "ty" or "ta" is what the accessor
    of that key returns next, whatever the table held before; a number
    written under "tv" makes [target] true exactly when it is not zero;
    and once the entry is removed the accessors are back to 0 and
    false. *)
Theorem accessors_after_write (table : gmap string Value) (d : double) :
  (fst (horizontalOffset (<["tx" := NT_Double d]> table)) = d /\
   fst (verticalOffset (<["ty" := NT_Double d]> table)) = d /\
   fst (targetArea (<["ta" := NT_Double d]> table)) = d /\
   (fst (target (<["tv" := NT_Double d]> table)) = true <-> ~ d == 0)) /\
  (fst (horizontalOffset (delete "tx" table)) = 0 /\
   fst (verticalOffset (delete "ty" table)) = 0 /\
   fst (targetArea (delete "ta" table)) = 0 /\
   fst (target (delete "tv" table)) = false).
Proof.
  unfold horizontalOffset, verticalOffset, targetArea.
  rewrite !fst_target, !GetNumber_insert, !GetNumber_delete.
  repeat split; try reflexivity.
  - intros H E. apply bool_of_double_false in E. congruence.
  - intros H. destruct (bool_of_double d) eqn:E; [reflexivity|].
    apply bool_of_double_false in E. contradiction.
Qed.

(** X9. An accessor reads its own key only: writing or removing the
    entry of any other key leaves what it returns unchanged. *)
Theorem accessors_other_keys (table : gmap string Value) (key : string) (v : Value) :
  (key <> "tx" ->
   fst (horizontalOffset (<[key := v]> table)) = fst (horizontalOffset table) /\
   fst (horizontalOffset (delete key table)) = fst (horizontalOffset table)) /\
  (key <> "ty" ->
   fst (verticalOffset (<[key := v]> table)) = fst (verticalOffset table) /\
   fst (verticalOffset (delete key table)) = fst (verticalOffset table)) /\
  (key <> "ta" ->
   fst (targetArea (<[key := v]> table)) = fst (targetArea table) /\
   fst (targetArea (delete key table)) = fst (targetArea table)) /\
  (key <> "tv" ->
   fst (target (<[key := v]> table)) = fst (target table) /\
   fst (target (delete key table)) = fst (target table)).
Proof.
  unfold horizontalOffset, verticalOffset, targetArea. rewrite !fst_target.
  repeat split;
    rewrite ?GetNumber_insert_ne, ?GetNumber_delete_ne by assumption;
    reflexivity.
Qed.

End LimelightLookups.

(** A target seen with area 4 and offsets 3 and -2, then the vertical
    offset rewritten: the horizontal offset still reads 3. *)
Lemma accessors_other_keys_witness :
  let table : gmap string Limelight.Value :=
    <["tv" := Limelight.NT_Double 1]>
      (<["ta" := Limelight.NT_Double 4]>
         (<["ty" := Limelight.NT_Double (- (2))]>
            (<["tx" := Limelight.NT_Double 3]> ∅))) in
  fst (Limelight.horizontalOffset (<["ty" := Limelight.NT_Double 5]> table)) =
    fst (Limelight.horizontalOffset table) /\
  fst (Limelight.horizontalOffset (delete "ty" table)) =
    fst (Limelight.horizontalOffset table).
Proof.
  intros table.
  apply (proj1 (accessors_other_keys table "ty" (Limelight.NT_Double 5))).
  discriminate.
Defined.

(** * Further properties of the dispatcher *)

Section TrainExtras.
Import SwerveModule SwerveTrain.
Context {M : Type} {I : Interface M}.

Lemma iter_same (n : nat) (m : M) : Nat.iter n (fun m => m) m = m.
Proof. induction n as [|n IH]; [reflexivity | exact IH]. Qed.

(** The store after an operation, module by module. *)
Lemma modules_run (op : Operation) (r : Robot M) (p : ModuleRef) :
  modules (exec (run op) r) p =
  apply_to (method_of op) (round (self r)) (modules r) p.
Proof.
  destruct op as [v|v|verbose| | |]; unfold exec; cbn [run method_of].
  - now rewrite setDriveSpeed_run.
  - now rewrite setSwerveSpeed_run.
  - now rewrite setSwerveZeroPosition_run.
  - now rewrite assumeZeroPosition_run.
  - now rewrite assumeNearestZeroPosition_run.
  - rewrite publishSwervePositions_run. cbn [snd modules].
    rewrite apply_to_at. now rewrite iter_same.
Qed.

Lemma self_run (op : Operation) (r : Robot M) : self (exec (run op) r) = self r.
Proof. destruct (regular_run op) as [H _]. apply H. Qed.

(** X10. An operation changes a module by its own method only, once for
    each of the four pointers that refers to it, whatever the other
    modules are and in whatever order they are called; a module that none
    of the four pointers refers to is left as it was. *)
Theorem bulk_operation_per_module (op : Operation) (r : Robot M) (p : ModuleRef) :
  modules (exec (run op) r) p =
    Nat.iter (count_occ Nat.eq_dec (round (self r)) p) (method_of op) (modules r p) /\
  (p ∈ round (self r) \/ modules (exec (run op) r) p = modules r p).
Proof.
  rewrite modules_run. split.
  - apply apply_to_at.
  - apply apply_to_other.
Qed.

(** X11. Two operations in sequence: the dispatcher object stays, the
    events are those of the first followed by those of the second, and
    each module ends as if the calls of the first operation on it had all
    been made before those of the second. *)
Theorem operations_compose (op1 op2 : Operation) (r : Robot M) (p : ModuleRef) :
  let both : Cmd M unit := run op1 ;; run op2 in
  let n := count_occ Nat.eq_dec (round (self r)) p in
  self (exec both r) = self r /\
  issued both r = issued (run op1) r ++ issued (run op2) (exec (run op1) r) /\
  modules (exec both r) p =
    Nat.iter n (method_of op2) (Nat.iter n (method_of op1) (modules r p)).
Proof.
  intros both n. unfold both, mbind, cmd_bind.
  rewrite issued_bind by (intros; apply regular_run).
  rewrite exec_bind. rewrite self_run, modules_run, self_run.
  rewrite apply_to_at. rewrite modules_run, apply_to_at.
  repeat split; reflexivity.
Qed.

(** X12. The [verbose] flag of the zero capture adds telemetry and
    nothing else: the modules end the same, the quiet run publishes
    nothing, and the verbose run is the quiet run followed by reads of the
    stored zeros and their publication. *)
Theorem verbose_adds_telemetry_only (r : Robot M) :
  let quiet := issued (setSwerveZeroPosition false) r in
  let loud := issued (setSwerveZeroPosition true) r in
  modules (exec (setSwerveZeroPosition true) r) =
    modules (exec (setSwerveZeroPosition false) r) /\
  published quiet = [] /\
  exists tail,
    loud = quiet ++ tail /\
    Forall (fun e => match e with
                     | ModuleCall _ c => c = GetSwerveZeroPosition
                     | PutNumber _ _ => True
                     end) tail.
Proof.
  intros quiet loud.
  pose proof (setSwerveZeroPosition_run true r) as Ht.
  pose proof (setSwerveZeroPosition_run false r) as Hf.
  cbv zeta in Ht, Hf.
  assert (Eq : quiet = map (fun p => ModuleCall p SetZeroPosition) (round (self r))).
  { unfold quiet. apply issued_app. unfold exec. rewrite Hf. cbn [snd events].
    now rewrite app_nil_r. }
  unfold loud. erewrite issued_app by (unfold exec; rewrite Ht; reflexivity).
  unfold exec. rewrite Ht, Hf. cbn [snd modules]. rewrite Eq.
  split; [reflexivity|]. split; [reflexivity|].
  eexists. split; [reflexivity|]. repeat constructor.
Qed.

Lemma dashboard_after_app (l1 l2 : list Event) (d : gmap string double) :
  dashboard_after (l1 ++ l2) d = dashboard_after l2 (dashboard_after l1 d).
Proof. unfold dashboard_after. apply foldl_app. Qed.

(** A key that no [PutNumber] of the log names keeps its entry. *)
Lemma dashboard_after_frame (log : list Event) (d : gmap string double) (key : string) :
  key ∉ (published log).*1 -> dashboard_after log d !! key = d !! key.
Proof.
  revert d. induction log as [|e log IH]; intros d Hk; [reflexivity|].
  destruct e as [p c | k v]; cbn in Hk |- *.
  - now apply IH.
  - apply not_elem_of_cons in Hk. destruct Hk as [Hne Hk].
    unfold dashboard_after in IH. rewrite IH by exact Hk.
    now rewrite lookup_insert_ne.
Qed.

Lemma published_keys (op : Operation) (r : Robot M) :
  (published (issued (run op) r)).*1 = keys_of op.
Proof.
  destruct op as [v|v|verbose| | |]; cbn [run].
  - erewrite issued_app by (unfold exec; rewrite setDriveSpeed_run; reflexivity).
    reflexivity.
  - erewrite issued_app by (unfold exec; rewrite setSwerveSpeed_run; reflexivity).
    reflexivity.
  - erewrite issued_app
      by (unfold exec; rewrite setSwerveZeroPosition_run; reflexivity).
    destruct verbose; reflexivity.
  - erewrite issued_app by (unfold exec; rewrite assumeZeroPosition_run; reflexivity).
    reflexivity.
  - erewrite issued_app
      by (unfold exec; rewrite assumeNearestZeroPosition_run; reflexivity).
    reflexivity.
  - erewrite issued_app
      by (unfold exec; rewrite publishSwervePositions_run; reflexivity).
    reflexivity.
Qed.

(** X13. An operation writes the SmartDashboard under its own four keys
    at most: every other entry keeps its number.  The speed and homing
    operations and the quiet capture write none. *)
Theorem dashboard_frame (op : Operation) (r : Robot M)
    (d : gmap string double) (key : string) :
  key ∉ keys_of op ->
  dashboard_after (issued (run op) r) d !! key = d !! key.
Proof.
  intros Hk. apply dashboard_after_frame. now rewrite published_keys.
Qed.

Lemma capture_then_publish_log (r : Robot M) :
  let this := self r in
  let captured := apply_to setZeroPosition (round this) (modules r) in
  issued (setSwerveZeroPosition true ;; publishSwervePositions) r =
  [ModuleCall (m_frontRight this) SetZeroPosition;
   ModuleCall (m_frontLeft this) SetZeroPosition;
   ModuleCall (m_rearLeft this) SetZeroPosition;
   ModuleCall (m_rearRight this) SetZeroPosition;
   ModuleCall (m_frontRight this) GetSwerveZeroPosition;
   PutNumber "FR Swrv Pos0" (getSwerveZeroPosition (captured (m_frontRight this)));
   ModuleCall (m_frontLeft this) GetSwerveZeroPosition;
   PutNumber "FL Swrv Pos0" (getSwerveZeroPosition (captured (m_frontLeft this)));
   ModuleCall (m_rearLeft this) GetSwerveZeroPosition;
   PutNumber "RL Swrv Pos0" (getSwerveZeroPosition (captured (m_rearLeft this)));
   ModuleCall (m_rearRight this) GetSwerveZeroPosition;
   PutNumber "RR Swrv Pos0" (getSwerveZeroPosition (captured (m_rearRight this)));
   ModuleCall (m_frontRight this) GetSwervePosition;
   PutNumber "FR Swrv Pos" (getSwervePosition (captured (m_frontRight this)));
   ModuleCall (m_frontLeft this) GetSwervePosition;
   PutNumber "FL Swrv Pos" (getSwervePosition (captured (m_frontLeft this)));
   ModuleCall (m_rearLeft this) GetSwervePosition;
   PutNumber "RL Swrv Pos" (getSwervePosition (captured (m_rearLeft this)));
   ModuleCall (m_rearRight this) GetSwervePosition;
   PutNumber "RR Swrv Pos" (getSwervePosition (captured (m_rearRight this)))].
Proof.
  intros this captured. apply issued_app.
  unfold exec, mbind, cmd_bind, bind.
  rewrite setSwerveZeroPosition_run. fold this. fold captured.
  rewrite publishSwervePositions_run. cbn [snd self modules events].
  rewrite <- app_assoc. reflexivity.
Qed.

(** X14. After a verbose capture followed by a publication the
    SmartDashboard holds all eight numbers: the stored zero and the
    position of each module, each under its own key, the positions being
    read from the modules as the capture left them. *)
Theorem capture_then_publish_dashboard (r : Robot M) (d : gmap string double) :
  let this := self r in
  let captured := apply_to setZeroPosition (round this) (modules r) in
  let both : Cmd M unit := setSwerveZeroPosition true ;; publishSwervePositions in
  let board := dashboard_after (issued both r) d in
  (board !! "FR Swrv Pos0" = Some (getSwerveZeroPosition (captured (m_frontRight this))) /\
   board !! "FL Swrv Pos0" = Some (getSwerveZeroPosition (captured (m_frontLeft this))) /\
   board !! "RL Swrv Pos0" = Some (getSwerveZeroPosition (captured (m_rearLeft this))) /\
   board !! "RR Swrv Pos0" = Some (getSwerveZeroPosition (captured (m_rearRight this)))) /\
  (board !! "FR Swrv Pos" = Some (getSwervePosition (captured (m_frontRight this))) /\
   board !! "FL Swrv Pos" = Some (getSwervePosition (captured (m_frontLeft this))) /\
   board !! "RL Swrv Pos" = Some (getSwervePosition (captured (m_rearLeft this))) /\
   board !! "RR Swrv Pos" = Some (getSwervePosition (captured (m_rearRight this)))).
Proof.
  intros this captured both board.
  unfold board, both. rewrite (capture_then_publish_log r).
  fold this. fold captured.
  unfold dashboard_after. cbn [foldl].
  repeat split;
    repeat (first [ rewrite lookup_insert_eq; reflexivity
                  | rewrite lookup_insert_ne by discriminate ]).
Qed.

(** X15. When the four pointers refer to four different modules, an
    operation applies its method exactly once to each of them. *)
Theorem bulk_operation_distinct_modules (op : Operation) (r : Robot M) (p : ModuleRef) :
  NoDup (round (self r)) ->
  p ∈ round (self r) ->
  modules (exec (run op) r) p = method_of op (modules r p).
Proof.
  intros Hnd Hp. rewrite modules_run, apply_to_at.
  apply NoDup_ListNoDup in Hnd.
  apply list_elem_of_In in Hp.
  pose proof (proj1 (NoDup_count_occ Nat.eq_dec (round (self r))) Hnd p) as Hle.
  apply (count_occ_In Nat.eq_dec) in Hp.
  assert (E : count_occ Nat.eq_dec (round (self r)) p = 1%nat) by lia.
  now rewrite E.
Qed.

End TrainExtras.

Lemma dashboard_frame_witness :
  let d : gmap string double := <["FR Swrv Pos0" := 1000]> ∅ in
  SwerveTrain.dashboard_after
    (SwerveTrain.issued
       (SwerveTrain.run (I := Actuator.actuator 4096)
          SwerveTrain.PublishSwervePositionsOp)
       (Actuator.example_robot [])) d !! "FR Swrv Pos0" = d !! "FR Swrv Pos0".
Proof.
  intros d.
  apply (dashboard_frame (I := Actuator.actuator 4096)
           SwerveTrain.PublishSwervePositionsOp (Actuator.example_robot []) d
           "FR Swrv Pos0").
  refine (bool_decide_unpack _ _). vm_compute. exact I.
Defined.

Lemma bulk_operation_distinct_modules_witness :
  SwerveTrain.modules
    (SwerveTrain.exec
       (SwerveTrain.run (I := Actuator.actuator 4096)
          (SwerveTrain.SetDriveSpeedOp (1 # 2)))
       (Actuator.example_robot [])) 3%nat =
  SwerveTrain.method_of (I := Actuator.actuator 4096)
    (SwerveTrain.SetDriveSpeedOp (1 # 2))
    (SwerveTrain.modules (Actuator.example_robot []) 3%nat).
Proof.
  apply (bulk_operation_distinct_modules (I := Actuator.actuator 4096)
           (SwerveTrain.SetDriveSpeedOp (1 # 2)) (Actuator.example_robot []) 3%nat).
  - refine (bool_decide_unpack _ _). vm_compute. exact I.
  - refine (bool_decide_unpack _ _). vm_compute. exact I.
Defined.
